(** * Native reductions of chainerx: ArgMax, ArgMin, Sum, AMax

    A shallow embedding of
    [chainerx_cc/chainerx/native/native_device/reduction.cc]: the four
    reduction policies ([Identity], [MapIn], [Reduce], [MapOut]) and the
    adapters that check their preconditions and hand the policy to the
    reduction engine, with the properties the specification states about
    them. *)

From Stdlib Require Import ZArith List Bool Lia Permutation.
From Stdlib Require Import Floats.SpecFloat.
Import ListNotations.
Open Scope Z_scope.

(** ** Element types *)

(** The element types an array can hold ([dtype.h] is not part of the
    sources at hand; these are the types chainerx arrays have).
    [VisitDtype] maps the run-time tag to the C++ type; here the tag
    indexes the carrier [El] and every operation on elements. *)
Inductive Dtype : Set :=
  | kBool | kInt8 | kInt16 | kInt32 | kInt64 | kUInt8
  | kFloat16 | kFloat32 | kFloat64.

Definition is_float (d : Dtype) : bool :=
  match d with
  | kFloat16 | kFloat32 | kFloat64 => true
  | _ => false
  end.

(** Integral types (with [bool] as 0/1) are integers kept inside the range
    of the type; floating types are IEEE 754 values. *)
Definition El (d : Dtype) : Type := if is_float d then spec_float else Z.

(** Mantissa precision and exponent bound of the binary formats. *)
Definition prec (d : Dtype) : Z :=
  match d with
  | kFloat16 => 11
  | kFloat32 => 24
  | _ => 53
  end.

Definition emax (d : Dtype) : Z :=
  match d with
  | kFloat16 => 16
  | kFloat32 => 128
  | _ => 1024
  end.

Definition int_min (d : Dtype) : Z :=
  match d with
  | kInt8 => -128
  | kInt16 => -32768
  | kInt32 => -2147483648
  | kInt64 => -9223372036854775808
  | _ => 0
  end.

Definition int_max (d : Dtype) : Z :=
  match d with
  | kBool => 1
  | kInt8 => 127
  | kInt16 => 32767
  | kInt32 => 2147483647
  | kInt64 => 9223372036854775807
  | kUInt8 => 255
  | _ => 0
  end.

(** Conversion of an integer to an integral type: anything but zero is
    [true] for [bool], two's complement wrap-around otherwise. *)
Definition wrap (d : Dtype) (z : Z) : Z :=
  match d with
  | kBool => if z =? 0 then 0 else 1
  | _ => (z - int_min d) mod (int_max d - int_min d + 1) + int_min d
  end.

(** The values a stored element can take. *)
Definition valid (d : Dtype) : El d -> bool :=
  match d return El d -> bool with
  | kFloat16 => valid_binary (prec kFloat16) (emax kFloat16)
  | kFloat32 => valid_binary (prec kFloat32) (emax kFloat32)
  | kFloat64 => valid_binary (prec kFloat64) (emax kFloat64)
  | d' => fun z => (int_min d' <=? z) && (z <=? int_max d')
  end.

(** [T{}] and [Accum{0}]. *)
Definition zero (d : Dtype) : El d :=
  match d return El d with
  | kFloat16 | kFloat32 | kFloat64 => S754_zero false
  | _ => 0
  end.

(** [operator<]. *)
Definition lt (d : Dtype) : El d -> El d -> bool :=
  match d return El d -> El d -> bool with
  | kFloat16 | kFloat32 | kFloat64 => SFltb
  | _ => Z.ltb
  end.

(** [operator>]: [a > b] is [b < a] on every element type. *)
Definition gt (d : Dtype) (a b : El d) : bool := lt d b a.

(** [operator+=].  Integral additions wrap around (the narrow types are
    promoted to [int] and converted back; for [int32_t] and [int64_t] this
    is what the hardware does on overflow). *)
Definition add (d : Dtype) : El d -> El d -> El d :=
  match d return El d -> El d -> El d with
  | kFloat16 => SFadd (prec kFloat16) (emax kFloat16)
  | kFloat32 => SFadd (prec kFloat32) (emax kFloat32)
  | kFloat64 => SFadd (prec kFloat64) (emax kFloat64)
  | d' => fun a b => wrap d' (a + b)
  end.

Definition SFis_nan (x : spec_float) : bool :=
  match x with
  | S754_nan => true
  | _ => false
  end.

(** Modelled from the spec: [chainerx::IsNan] of [numeric.h] is not part of
    the sources at hand; the specification describes it as the NaN
    predicate of the numeric type traits, which no integral value
    satisfies. *)
Definition IsNan (d : Dtype) : El d -> bool :=
  match d return El d -> bool with
  | kFloat16 | kFloat32 | kFloat64 => SFis_nan
  | _ => fun _ => false
  end.

(** Modelled from the spec: [NumericLimits<T>::LowestOrInf] of
    [numeric_limits.h] is not part of the sources at hand; the
    specification gives the identity of AMax as the lowest representable
    value, or minus infinity where the type has one. *)
Definition LowestOrInf (d : Dtype) : El d :=
  match d return El d with
  | kFloat16 | kFloat32 | kFloat64 => S754_infinity true
  | d' => int_min d'
  end.

(** Rounding of a floating value into a binary format (a value the format
    already represents is unchanged), and the integer part of a floating
    value. *)
Definition SFround (p em : Z) (x : spec_float) : spec_float :=
  match x with
  | S754_finite s m e =>
      if bounded p em m e then x else binary_round p em s m e
  | _ => x
  end.

Definition SFtrunc (x : spec_float) : option Z :=
  match x with
  | S754_zero _ => Some 0
  | S754_finite s m e => Some (cond_Zopp s (Z.shiftl (Zpos m) e))
  | _ => None
  end.

Definition SFis_zero (x : spec_float) : bool :=
  match x with
  | S754_zero _ => true
  | _ => false
  end.

Definition float_of (d : Dtype) (x : spec_float) : El d :=
  match d return El d with
  | kFloat16 => SFround (prec kFloat16) (emax kFloat16) x
  | kFloat32 => SFround (prec kFloat32) (emax kFloat32) x
  | kFloat64 => SFround (prec kFloat64) (emax kFloat64) x
  | kBool => if SFis_zero x then 0 else 1
  | d' => match SFtrunc x with
          | Some z => wrap d' z
          | None => int_min d'
          end
  end.

Definition int_of (d : Dtype) (z : Z) : El d :=
  match d return El d with
  | kFloat16 => binary_normalize (prec kFloat16) (emax kFloat16) z 0 false
  | kFloat32 => binary_normalize (prec kFloat32) (emax kFloat32) z 0 false
  | kFloat64 => binary_normalize (prec kFloat64) (emax kFloat64) z 0 false
  | d' => wrap d' z
  end.

(** [static_cast<To>(x)] for [x] of type [From].  A floating value is
    truncated towards zero when the target is integral (C++ leaves the
    conversion of NaN, of the infinities and of values outside the target
    range undefined; the definition picks an element of the target type
    there), tested against zero when the target is [bool], and rounded to
    nearest even when the target is a floating type. *)
Definition static_cast (from to : Dtype) : El from -> El to :=
  match from return El from -> El to with
  | kFloat16 | kFloat32 | kFloat64 => float_of to
  | _ => int_of to
  end.

(** ** Shapes, axes and arrays *)

Definition Shape := list Z.
Definition Axes := list Z.

(** The logical content of an array, row-major (last axis fastest).  Strides
    and the buffer belong to the array container; a strided view denotes
    the same indexed family of elements. *)
Record Array (T : Dtype) : Type := mkArray {
  shape : Shape;
  data : list (El T)
}.
Arguments mkArray {T} shape data.
Arguments shape {T} a.
Arguments data {T} a.

Definition TotalSize (s : Shape) : Z := fold_right Z.mul 1 s.

Definition well_formed {T : Dtype} (a : Array T) : Prop :=
  Forall (fun n => 0 <= n) (shape a) /\
  Z.of_nat (length (data a)) = TotalSize (shape a).

(** [s[i]]; an index outside the shape has no dimension. *)
Definition dim (s : Shape) (i : Z) : option Z :=
  if i <? 0 then None else nth_error s (Z.to_nat i).

Definition is_reduced (axis : Axes) (k : Z) : bool := existsb (Z.eqb k) axis.

(** The dimensions at the positions [k], [k+1], ... that [keep] selects. *)
Fixpoint select (keep : Z -> bool) (k : Z) (s : Shape) : Shape :=
  match s with
  | [] => []
  | n :: s' =>
      if keep k then n :: select keep (k + 1) s' else select keep (k + 1) s'
  end.

Definition reduced_shape (axis : Axes) (s : Shape) : Shape :=
  select (is_reduced axis) 0 s.

Definition dropped_shape (axis : Axes) (s : Shape) : Shape :=
  select (fun k => negb (is_reduced axis k)) 0 s.

Fixpoint collapse (axis : Axes) (k : Z) (s : Shape) : Shape :=
  match s with
  | [] => []
  | n :: s' =>
      (if is_reduced axis k then 1 else n) :: collapse axis (k + 1) s'
  end.

Definition keepdims_shape (axis : Axes) (s : Shape) : Shape :=
  collapse axis 0 s.

Definition shape_eqb (s t : Shape) : bool :=
  if list_eq_dec Z.eq_dec s t then true else false.

(** Modelled from the spec: [internal::IsValidReductionShape] is not part of
    the sources at hand.  By the specification it is true iff the output
    shape equals the input shape with every axis in [axes] either removed
    (drop mode) or, when keep-dims is allowed, set to 1 (keep-dims mode),
    the remaining axes keeping their relative order. *)
Definition IsValidReductionShape
    (in_shape : Shape) (axes : Axes) (out_shape : Shape)
    (allow_keepdims : bool) : bool :=
  shape_eqb out_shape (dropped_shape axes in_shape)
  || (allow_keepdims && shape_eqb out_shape (keepdims_shape axes in_shape)).

(** ** The reduction engine *)

(** A reduction policy: the four members of the local [Impl] structs. *)
Module Policy.
Record t (In Out Accum : Type) : Type := mk {
  Identity : Accum;
  MapIn : In -> Z -> Accum;
  Reduce : Accum -> Accum -> Accum;   (* [Reduce next accum]: the new [accum] *)
  MapOut : Accum -> Out
}.
Arguments mk {In Out Accum}.
Arguments Identity {In Out Accum}.
Arguments MapIn {In Out Accum}.
Arguments Reduce {In Out Accum}.
Arguments MapOut {In Out Accum}.
End Policy.

Definition range (n : Z) : list Z := map Z.of_nat (seq 0 (Z.to_nat n)).

(** All coordinates of a shape, row-major. *)
Fixpoint indices (s : Shape) : list (list Z) :=
  match s with
  | [] => [[]]
  | n :: s' => flat_map (fun i => map (cons i) (indices s')) (range n)
  end.

(** Row-major linear offset of a coordinate. *)
Fixpoint offset_from (acc : Z) (s : Shape) (c : list Z) : Z :=
  match s, c with
  | n :: s', i :: c' => offset_from (acc * n + i) s' c'
  | _, _ => acc
  end.

Definition offset (s : Shape) (c : list Z) : Z := offset_from 0 s c.

(** The input coordinate made of an output coordinate (kept axes) and a
    coordinate over the reduced axes. *)
Fixpoint merge (axis : Axes) (k : Z) (s : Shape) (c_out c_red : list Z)
    : list Z :=
  match s with
  | [] => []
  | _ :: s' =>
      if is_reduced axis k then
        match c_red with
        | i :: r => i :: merge axis (k + 1) s' c_out r
        | [] => []
        end
      else
        match c_out with
        | i :: r => i :: merge axis (k + 1) s' r c_red
        | [] => []
        end
  end.

Definition at_offset {A : Type} (l : list A) (i : Z) : list A :=
  match nth_error l (Z.to_nat i) with
  | Some x => [x]
  | None => []
  end.

(** Modelled from the spec: the grouping done by the engine of
    [native/reduce.h], which is not part of the sources at hand.  The
    group of an output coordinate holds the input elements at all
    coordinates of the reduced axes, in row-major (last axis fastest)
    order relative to the input. *)
Definition group {T : Dtype} (a : Array T) (axis : Axes) (c_out : list Z)
    : list (El T) :=
  flat_map
    (fun c_red => at_offset (data a)
                    (offset (shape a) (merge axis 0 (shape a) c_out c_red)))
    (indices (reduced_shape axis (shape a))).

(** Modelled from the spec: the groups of all output elements, in output
    order (row-major over the kept axes). *)
Definition groups {T : Dtype} (a : Array T) (axis : Axes)
    : list (list (El T)) :=
  map (group a axis) (indices (dropped_shape axis (shape a))).

(** An element together with the running count of the elements of its group
    visited before it. *)
Fixpoint enumerate_from {A : Type} (i : Z) (l : list A) : list (A * Z) :=
  match l with
  | [] => []
  | x :: l' => (x, i) :: enumerate_from (i + 1) l'
  end.

Definition enumerate {A : Type} (l : list A) : list (A * Z) :=
  enumerate_from 0 l.

Section Engine.
Context {In Out Accum : Type}.
Variable impl : Policy.t In Out Accum.

(** One turn of the engine's loop: the mapped element is [next], the running
    state is [accum]. *)
Definition step (accum : Accum) (e : In * Z) : Accum :=
  Policy.Reduce impl (Policy.MapIn impl (fst e) (snd e)) accum.

(** Modelled from the spec: the three steps of the engine for one output
    element.  [accum = Identity()]; for each element of the group in
    visiting order, [Reduce(MapIn(element, index), accum)]; the output is
    [MapOut(accum)]. *)
Definition ReduceGroup (g : list (In * Z)) : Out :=
  Policy.MapOut impl (fold_left step g (Policy.Identity impl)).

Definition ReduceGroups (gs : list (list (In * Z))) : list Out :=
  map ReduceGroup gs.
End Engine.

(** Modelled from the spec: the engine [Reduce] of [native/reduce.h] is not
    part of the sources at hand.  By the specification it visits the
    output elements in output order and, for each, folds the policy over
    the elements of the group in row-major order of the reduced axes,
    handing [MapIn] the element and its position.  The position counts
    the elements of the group from 0: that is the index the specification's
    first concrete scenario fixes (the row [4,0,6] yields 2), and for a
    reduction over all axes it is the flat index into the input.  The
    result is the content of [out], one element per group. *)
Definition Reduce {T : Dtype} {Out Accum : Type}
    (a : Array T) (axis : Axes) (impl : Policy.t (El T) Out Accum)
    : list Out :=
  ReduceGroups impl (map enumerate (groups a axis)).

(** ** The adapters *)

(** Modelled from the spec: [CHAINERX_ASSERT] of [macro.h] is not part of
    the sources at hand.  By the specification a violated precondition is
    signalled by the assertion, fatally and without a result (a build that
    compiles assertions out skips the check); the model is the checked
    assertion.  An adapter can fail two of them.  The arrays live on the
    one native device, so that [CheckDevicesCompatible] has nothing to
    reject. *)
Inductive Assertion : Set :=
  | ReducedAxesNonEmpty     (* all_of(axis, a.shape()[i] > 0) *)
  | ValidReductionShape.    (* IsValidReductionShape(...) *)

Inductive Result (A : Type) : Type :=
  | Ok (x : A)
  | AssertionFailed (which : Assertion).
Arguments Ok {A} x.
Arguments AssertionFailed {A} which.

(** [std::all_of(axis.begin(), axis.end(),
                 [&a](int8_t i) { return a.shape()[i] > 0; })] *)
Definition all_axes_nonempty (s : Shape) (axis : Axes) : bool :=
  forallb (fun i => match dim s i with
                    | Some n => 0 <? n
                    | None => false
                    end) axis.

Module NativeArgMaxOp.
Module Impl.
Record MaxAndArgMax (T : Dtype) : Type := mk {
  max : El T;
  argmax : Z
}.
Arguments mk {T}.
Arguments max {T}.
Arguments argmax {T}.

Definition Identity (T : Dtype) : MaxAndArgMax T := mk (zero T) (-1).
Definition MapIn (T : Dtype) (x : El T) (index : Z) : MaxAndArgMax T :=
  mk x index.
Definition Reduce (T : Dtype) (next accum : MaxAndArgMax T)
    : MaxAndArgMax T :=
  if (argmax accum <? 0) || lt T (max accum) (max next) then next
  else accum.
Definition MapOut (T : Dtype) (accum : MaxAndArgMax T) : Z := argmax accum.

Definition policy (T : Dtype) : Policy.t (El T) Z (MaxAndArgMax T) :=
  Policy.mk (Identity T) (MapIn T) (Reduce T) (MapOut T).
End Impl.

Definition Call {T : Dtype} (a : Array T) (axis : Axes)
    (out : Array kInt64) : Result (Array kInt64) :=
  if negb (all_axes_nonempty (shape a) axis) then
    AssertionFailed ReducedAxesNonEmpty
  else if negb (IsValidReductionShape (shape a) axis (shape out) false) then
    AssertionFailed ValidReductionShape
  else Ok (@mkArray kInt64 (shape out) (Reduce a axis (Impl.policy T))).
End NativeArgMaxOp.

Module NativeArgMinOp.
Module Impl.
Record MinAndArgMin (T : Dtype) : Type := mk {
  min : El T;
  argmin : Z
}.
Arguments mk {T}.
Arguments min {T}.
Arguments argmin {T}.

Definition Identity (T : Dtype) : MinAndArgMin T := mk (zero T) (-1).
Definition MapIn (T : Dtype) (x : El T) (index : Z) : MinAndArgMin T :=
  mk x index.
Definition Reduce (T : Dtype) (next accum : MinAndArgMin T)
    : MinAndArgMin T :=
  if (argmin accum <? 0) || gt T (min accum) (min next) then next
  else accum.
Definition MapOut (T : Dtype) (accum : MinAndArgMin T) : Z := argmin accum.

Definition policy (T : Dtype) : Policy.t (El T) Z (MinAndArgMin T) :=
  Policy.mk (Identity T) (MapIn T) (Reduce T) (MapOut T).
End Impl.

Definition Impl {T : Dtype} (a : Array T) (axis : Axes)
    (out : Array kInt64) : Result (Array kInt64) :=
  if negb (all_axes_nonempty (shape a) axis) then
    AssertionFailed ReducedAxesNonEmpty
  else if negb (IsValidReductionShape (shape a) axis (shape out) false) then
    AssertionFailed ValidReductionShape
  else Ok (@mkArray kInt64 (shape out) (Reduce a axis (Impl.policy T))).
End NativeArgMinOp.

Module NativeSumOp.
Module Impl.
(** [std::conditional_t<std::is_same<Out, Float16>{}, float, Out>] *)
Definition Accum (Out : Dtype) : Dtype :=
  match Out with
  | kFloat16 => kFloat32
  | _ => Out
  end.

Definition Identity (Out : Dtype) : El (Accum Out) := zero (Accum Out).
Definition MapIn (In Out : Dtype) (x : El In) (index : Z)
    : El (Accum Out) :=
  static_cast In (Accum Out) x.
Definition Reduce (Out : Dtype) (next accum : El (Accum Out))
    : El (Accum Out) :=
  add (Accum Out) accum next.
Definition MapOut (Out : Dtype) (accum : El (Accum Out)) : El Out :=
  static_cast (Accum Out) Out accum.

Definition policy (In Out : Dtype)
    : Policy.t (El In) (El Out) (El (Accum Out)) :=
  Policy.mk (Identity Out) (MapIn In Out) (Reduce Out) (MapOut Out).
End Impl.

Definition Call {In Out : Dtype} (a : Array In) (axis : Axes)
    (out : Array Out) : Result (Array Out) :=
  if negb (IsValidReductionShape (shape a) axis (shape out) true) then
    AssertionFailed ValidReductionShape
  else Ok (mkArray (shape out) (Reduce a axis (Impl.policy In Out))).
End NativeSumOp.

Module NativeAMaxOp.
Module Impl.
Definition Identity (T : Dtype) : El T := LowestOrInf T.
Definition MapIn (T : Dtype) (x : El T) (index : Z) : El T := x.
Definition Reduce (T : Dtype) (next accum : El T) : El T :=
  if IsNan T next || lt T accum next then next else accum.
Definition MapOut (T : Dtype) (accum : El T) : El T := accum.

Definition policy (T : Dtype) : Policy.t (El T) (El T) (El T) :=
  Policy.mk (Identity T) (MapIn T) (Reduce T) (MapOut T).
End Impl.

Definition Call {T : Dtype} (a : Array T) (axis : Axes)
    (out : Array T) : Result (Array T) :=
  if negb (IsValidReductionShape (shape a) axis (shape out) true) then
    AssertionFailed ValidReductionShape
  else Ok (mkArray (shape out) (Reduce a axis (Impl.policy T))).
End NativeAMaxOp.

(** The elements of a given type that the integers of a list convert to. *)
Definition ints (T : Dtype) (l : list Z) : list (El T) := map (int_of T) l.

(** ** Vocabulary of the properties *)

(** [a <= b]: both are numbers and [b < a] fails.  No NaN is below or above
    anything. *)
Definition le (T : Dtype) (a b : El T) : bool :=
  negb (IsNan T a) && negb (IsNan T b) && negb (lt T b a).

(** [m] bounds the group from above (from below). *)
Definition is_maximum (T : Dtype) (g : list (El T)) (m : El T) : bool :=
  forallb (fun x => le T x m) g.

Definition is_minimum (T : Dtype) (g : list (El T)) (m : El T) : bool :=
  forallb (fun x => le T m x) g.

(** Position, counted from [i], of the first element satisfying [f]. *)
Fixpoint find_from {A : Type} (f : A -> bool) (i : Z) (l : list A)
    : option Z :=
  match l with
  | [] => None
  | x :: l' => if f x then Some i else find_from f (i + 1) l'
  end.

(** The smallest position of the group holding a maximum (a minimum) of the
    group. *)
Definition first_maximum (T : Dtype) (g : list (El T)) : option Z :=
  find_from (is_maximum T g) 0 g.

Definition first_minimum (T : Dtype) (g : list (El T)) : option Z :=
  find_from (is_minimum T g) 0 g.

(** Position [p] holds a maximum (a minimum) and no other position does. *)
Definition unique_maximum (T : Dtype) (g : list (El T)) (p : nat) : Prop :=
  (exists m, nth_error g p = Some m /\ is_maximum T g m = true) /\
  forall q x, q <> p -> nth_error g q = Some x -> is_maximum T g x = false.

Definition unique_minimum (T : Dtype) (g : list (El T)) (p : nat) : Prop :=
  (exists m, nth_error g p = Some m /\ is_minimum T g m = true) /\
  forall q x, q <> p -> nth_error g q = Some x -> is_minimum T g x = false.

Definition has_nan (T : Dtype) (g : list (El T)) : bool :=
  existsb (IsNan T) g.

(** The element types with negative values. *)
Definition is_signed (T : Dtype) : bool :=
  match T with
  | kBool | kUInt8 => false
  | _ => true
  end.

Definition not_nan (T : Dtype) (e : El T * Z) : bool :=
  negb (IsNan T (fst e)).

(** The elements of a given type that the floating values of a list
    convert to. *)
Definition floats (T : Dtype) (l : list spec_float) : list (El T) :=
  map (float_of T) l.

(** The floating value -0. *)
Definition is_negative_zero (T : Dtype) : El T -> bool :=
  match T return El T -> bool with
  | kFloat16 | kFloat32 | kFloat64 =>
      fun x => match x with S754_zero true => true | _ => false end
  | _ => fun _ => false
  end.

(** What Sum makes of a group of one element. *)
Definition sum_of_one (In Out : Dtype) (x : El In) : El Out :=
  ReduceGroup (NativeSumOp.Impl.policy In Out) [(x, 0)].

Definition SFsame (x y : spec_float) : bool :=
  match x, y with
  | S754_zero s, S754_zero s' => Bool.eqb s s'
  | S754_infinity s, S754_infinity s' => Bool.eqb s s'
  | S754_nan, S754_nan => true
  | S754_finite s m e, S754_finite s' m' e' =>
      Bool.eqb s s' && Pos.eqb m m' && Z.eqb e e'
  | _, _ => false
  end.

(** The finite values of [Float16] are few enough to try them all: Sum
    returns each of them unchanged. *)
Definition half_unchanged (s : bool) (m : positive) (e : Z) : bool :=
  SFsame (sum_of_one kFloat16 kFloat16 (S754_finite s m e))
         (S754_finite s m e).

(** [f] and [g] hold wherever [v] does, on the grid of the mantissas
    [m0 + m] and exponents [e - e0] with [m] below [w] and [e] below [h]. *)
Definition on_grid (v f g : positive -> Z -> bool) (w h m0 e0 : Z) : bool :=
  forallb (fun e =>
    forallb (fun m => negb (v (Z.to_pos (m0 + m)) (e - e0))
                      || (f (Z.to_pos (m0 + m)) (e - e0)
                          && g (Z.to_pos (m0 + m)) (e - e0)))
            (range w))
    (range h).

(** ** Concrete inputs *)

Definition input_5535 : Array kInt64 := @mkArray kInt64 [4] [5; 5; 3; 5].
Definition input_m1_m5_m2 : Array kInt64 := @mkArray kInt64 [3] [-1; -5; -2].
Definition input_2x3 : Array kInt32 :=
  @mkArray kInt32 [2; 3] [1; 3; 2; 4; 0; 6].
Definition input_2x3_f32 : Array kFloat32 :=
  @mkArray kFloat32 [2; 3] (ints kFloat32 [1; 3; 2; 4; 0; 6]).
Definition input_0x3 : Array kFloat32 := @mkArray kFloat32 [0; 3] [].
Definition input_2x1x2 : Array kFloat32 :=
  @mkArray kFloat32 [2; 1; 2] (ints kFloat32 [1; -3; 2; 4]).
Definition out_scalar : Array kInt64 := @mkArray kInt64 [] [0].
Definition out_3 : Array kInt64 := @mkArray kInt64 [3] [0; 0; 0].
Definition out_2x1 : Array kInt64 := @mkArray kInt64 [2; 1] [0; 0].
Definition out_2_i32 : Array kInt32 := @mkArray kInt32 [2] [0; 0].
Definition out_3_i32 : Array kInt32 := @mkArray kInt32 [3] [0; 0; 0].
Definition f64_nan : El kFloat64 := S754_nan.
Definition f64_one : El kFloat64 := int_of kFloat64 1.
Definition f64_two : El kFloat64 := int_of kFloat64 2.
(** The groups of [input_2x3] along axis 1, labelled with the positions in
    the group and with the flat offsets into the input. *)
Definition groups_by_position : list (list (El kInt32 * Z)) :=
  [[(1, 0); (3, 1); (2, 2)]; [(4, 0); (0, 1); (6, 2)]].
Definition groups_by_offset : list (list (El kInt32 * Z)) :=
  [[(1, 0); (3, 1); (2, 2)]; [(4, 3); (0, 4); (6, 5)]].

(** ** Vocabulary of the further properties *)

(** A coordinate lies inside a shape. *)
Definition in_bounds (c : list Z) (s : Shape) : Prop :=
  Forall2 (fun i n => 0 <= i < n) c s.

(** The integer an element of an integral type stands for. *)
Definition int_value (d : Dtype) : El d -> Z :=
  match d return El d -> Z with
  | kFloat16 | kFloat32 | kFloat64 => fun _ => 0
  | _ => fun z => z
  end.

Definition Zsum (l : list Z) : Z := fold_right Z.add 0 l.

(** The truth value of an element: what its conversion to [bool] gives. *)
Definition truth (d : Dtype) (x : El d) : bool :=
  int_value kBool (static_cast d kBool x) =? 1.

Definition input_2x0 : Array kInt8 := @mkArray kInt8 [2; 0] [].
Definition out_2_i8 : Array kInt8 := @mkArray kInt8 [2] [0; 0].
Definition out_2 : Array kInt64 := @mkArray kInt64 [2] [0; 0].
Definition one_to_four : list (El kInt32 * Z) :=
  [(1, 0); (2, 1); (3, 2); (4, 3)].
Definition four_to_one : list (El kInt32 * Z) :=
  [(4, 0); (3, 1); (2, 2); (1, 3)].

(** ** Order properties of [operator<] *)

Section FloatOrder.
Implicit Types x y z : spec_float.

Ltac cmp :=
  repeat match goal with
  | |- context [Z.compare ?a ?b] => destruct (Z.compare_spec a b)
  | |- context [Pos.compare_cont Eq ?a ?b] =>
      change (Pos.compare_cont Eq a b) with (Pos.compare a b);
      destruct (Pos.compare_spec a b)
  end; simpl; try easy; try lia.

Lemma SFltb_nan_l x y : SFis_nan x = true -> SFltb x y = false.
Proof. destruct x; simpl; try discriminate; reflexivity. Qed.

Lemma SFltb_nan_r x y : SFis_nan y = true -> SFltb x y = false.
Proof. destruct y; simpl; try discriminate; destruct x; reflexivity. Qed.

Lemma SFltb_irrefl x : SFltb x x = false.
Proof.
  destruct x as [[]|[]| |[] m e]; try reflexivity;
    unfold SFltb, SFcompare; rewrite Z.compare_refl;
    change (Pos.compare_cont Eq m m) with (Pos.compare m m);
    rewrite Pos.compare_refl; reflexivity.
Qed.

Lemma SFltb_trans x y z :
  SFltb x y = true -> SFltb y z = true -> SFltb x z = true.
Proof.
  destruct x as [[]|[]| |[] mx ex], y as [[]|[]| |[] my ey],
           z as [[]|[]| |[] mz ez];
    unfold SFltb, SFcompare; try easy; cmp.
Qed.

Lemma SFltb_cotrans x y z :
  SFltb x y = true -> SFis_nan z = false ->
  SFltb x z = true \/ SFltb z y = true.
Proof.
  destruct x as [[]|[]| |[] mx ex], y as [[]|[]| |[] my ey],
           z as [[]|[]| |[] mz ez];
    unfold SFltb, SFcompare, SFis_nan; try easy; try (now left);
    try (now right); cmp.
Qed.

Lemma SFltb_neg_infinity x :
  SFis_nan x = false -> SFltb (S754_infinity true) x = false ->
  x = S754_infinity true.
Proof. destruct x as [[]|[]| |[] m e]; simpl; easy. Qed.
End FloatOrder.

(** The same facts for [lt] at every element type. *)
Section ElementOrder.
Variable T : Dtype.
Implicit Types a b c : El T.

Ltac by_kind tac :=
  destruct T; simpl in *; first [ tac | idtac ].

Lemma lt_nan_l a b : IsNan T a = true -> lt T a b = false.
Proof. by_kind ltac:(discriminate || apply SFltb_nan_l). Qed.

Lemma lt_nan_r a b : IsNan T b = true -> lt T a b = false.
Proof. by_kind ltac:(discriminate || apply SFltb_nan_r). Qed.

Lemma lt_irrefl a : lt T a a = false.
Proof. by_kind ltac:(apply Z.ltb_irrefl || apply SFltb_irrefl). Qed.

Lemma lt_trans a b c :
  lt T a b = true -> lt T b c = true -> lt T a c = true.
Proof.
  by_kind ltac:(apply SFltb_trans
                || (rewrite !Z.ltb_lt; intros; lia)).
Qed.

Lemma lt_cotrans a b c :
  lt T a b = true -> IsNan T c = false ->
  lt T a c = true \/ lt T c b = true.
Proof.
  by_kind ltac:(apply SFltb_cotrans
                || (rewrite !Z.ltb_lt; intros; lia)).
Qed.

Lemma lt_lowest a :
  valid T a = true -> IsNan T a = false ->
  lt T (LowestOrInf T) a = false -> a = LowestOrInf T.
Proof.
  by_kind ltac:((intros _; apply SFltb_neg_infinity)
                || (rewrite andb_true_iff, Z.ltb_ge, !Z.leb_le;
                    unfold int_min; intros; lia)).
Qed.
End ElementOrder.

(** ** Lists, positions and folds *)

Section Lists.
Context {A : Type}.
Implicit Types (f : A -> bool) (l : list A).

Lemma forallb_false f l :
  forallb f l = false -> exists x, In x l /\ f x = false.
Proof.
  induction l as [|x l IH]; simpl; [discriminate|].
  destruct (f x) eqn:E; simpl; intros H.
  - destruct (IH H) as (y & Hy & Hf). exists y. auto.
  - exists x. auto.
Qed.

Lemma enumerate_from_app i l1 l2 :
  enumerate_from i (l1 ++ l2) =
  enumerate_from i l1 ++ enumerate_from (i + Z.of_nat (length l1)) l2.
Proof.
  revert i. induction l1 as [|x l1 IH]; simpl; intros i.
  - now rewrite Z.add_0_r.
  - rewrite IH. do 3 f_equal. lia.
Qed.

Lemma enumerate_from_fst i l : map fst (enumerate_from i l) = l.
Proof.
  revert i. induction l as [|x l IH]; simpl; intros i; [|rewrite IH];
    reflexivity.
Qed.

Lemma enumerate_from_In i l e : In e (enumerate_from i l) -> In (fst e) l.
Proof.
  intros H. rewrite <- (enumerate_from_fst i l). now apply in_map.
Qed.

(** [find_from] splits the list at the position it returns. *)
Lemma find_from_split f i l p :
  find_from f i l = Some p ->
  exists pre x post,
    l = pre ++ x :: post /\ f x = true /\
    (forall y, In y pre -> f y = false) /\
    p = i + Z.of_nat (length pre).
Proof.
  revert i. induction l as [|x l IH]; simpl; intros i; [discriminate|].
  destruct (f x) eqn:E.
  - intros [= <-]. exists [], x, l. simpl. repeat split; auto; try easy.
    lia.
  - intros H. destruct (IH _ H) as (pre & y & post & -> & Hy & Hpre & ->).
    exists (x :: pre), y, post. simpl. repeat split; auto.
    + intros z [<-|Hz]; auto.
    + lia.
Qed.

Lemma find_from_nth f i l n x :
  nth_error l n = Some x -> f x = true ->
  (forall q y, (q < n)%nat -> nth_error l q = Some y -> f y = false) ->
  find_from f i l = Some (i + Z.of_nat n).
Proof.
  revert i n. induction l as [|y l IH]; intros i [|n]; simpl;
    try discriminate.
  - intros [= ->] -> _. f_equal. lia.
  - intros Hn Hx Hlt. rewrite (Hlt 0%nat y) by (simpl; auto; lia).
    rewrite (IH (i + 1) n); auto.
    + f_equal. lia.
    + intros q z Hq Hz. apply (Hlt (S q) z); [lia|exact Hz].
Qed.
End Lists.

(** ** ArgMax *)

Section ArgMax.
Variable T : Dtype.
Import NativeArgMaxOp.
Abbreviation acc := (Impl.MaxAndArgMax T).
Abbreviation stepT := (step (Impl.policy T)).

Lemma ArgMax_step (a : acc) (e : El T * Z) :
  stepT a e =
  if (Impl.argmax a <? 0) || lt T (Impl.max a) (fst e)
  then Impl.mk (fst e) (snd e) else a.
Proof. reflexivity. Qed.

(** Before the first maximum [m]: the accumulator is still empty or holds
    a value below [m]. *)
Lemma ArgMax_before m pre (a : acc) :
  Impl.argmax a < 0 \/ lt T (Impl.max a) m = true ->
  (forall e, In e pre -> lt T (fst e) m = true) ->
  let a' := fold_left stepT pre a in
  Impl.argmax a' < 0 \/ lt T (Impl.max a') m = true.
Proof.
  revert a. induction pre as [|e pre IH]; cbn [fold_left];
    intros a Ha Hpre; auto.
  apply IH; [|intros; apply Hpre; now right]. rewrite ArgMax_step.
  destruct (_ || _); cbn [Impl.max Impl.argmax]; auto.
  right. apply Hpre. now left.
Qed.

(** After it: nothing replaces an accumulator that no later element
    exceeds. *)
Lemma ArgMax_after m j post :
  0 <= j ->
  (forall e, In e post -> lt T m (fst e) = false) ->
  fold_left stepT post (Impl.mk m j) = Impl.mk m j.
Proof.
  intros Hj. induction post as [|e post IH]; cbn [fold_left];
    intros Hpost; auto.
  rewrite ArgMax_step. cbn [Impl.max Impl.argmax].
  rewrite (Hpost e) by now left.
  replace (j <? 0) with false by (symmetry; apply Z.ltb_ge; lia).
  cbn [orb]. apply IH. intros; apply Hpost; now right.
Qed.

Lemma ArgMax_group pre m j post :
  (forall e, In e pre -> lt T (fst e) m = true) ->
  (forall e, In e post -> lt T m (fst e) = false) ->
  0 <= j ->
  ReduceGroup (Impl.policy T) (pre ++ (m, j) :: post) = j.
Proof.
  intros Hpre Hpost Hj. unfold ReduceGroup.
  rewrite fold_left_app. cbn [fold_left].
  assert (Hb := ArgMax_before m pre (Impl.Identity T)
                  (or_introl (eq_refl : (-1 ?= 0) = Lt)) Hpre).
  cbv zeta in Hb. change (Policy.Identity (Impl.policy T))
    with (Impl.Identity T).
  rewrite ArgMax_step. cbn [fst snd].
  replace (_ || _) with true.
  - now rewrite ArgMax_after.
  - symmetry. apply orb_true_iff.
    destruct Hb as [Hb|Hb]; [left; now apply Z.ltb_lt | now right].
Qed.

(** Elements before the first maximum are strictly below it, elements
    after it do not exceed it. *)
Lemma below_maximum g m x :
  is_maximum T g m = true -> In x g -> is_maximum T g x = false ->
  lt T x m = true.
Proof.
  unfold is_maximum. intros Hm Hx Hnx.
  rewrite forallb_forall in Hm.
  destruct (forallb_false _ _ Hnx) as (y & Hy & Hyx).
  pose proof (Hm x Hx) as Hxm. pose proof (Hm y Hy) as Hym.
  unfold le in *.
  rewrite !andb_true_iff, !negb_true_iff in Hxm, Hym.
  destruct Hxm as [[Nx Nm] _], Hym as [[Ny _] Hmy].
  rewrite Ny, Nx in Hyx. simpl in Hyx. rewrite negb_false_iff in Hyx.
  destruct (lt_cotrans T x y m Hyx Nm) as [H|H]; congruence.
Qed.

Lemma not_above_maximum g m x :
  is_maximum T g m = true -> In x g -> lt T m x = false.
Proof.
  unfold is_maximum. intros Hm Hx. rewrite forallb_forall in Hm.
  specialize (Hm x Hx). unfold le in Hm.
  rewrite !andb_true_iff, !negb_true_iff in Hm. tauto.
Qed.

Lemma ArgMax_first_maximum g p :
  first_maximum T g = Some p ->
  ReduceGroup (Impl.policy T) (enumerate g) = p.
Proof.
  unfold first_maximum, enumerate. intros H.
  destruct (find_from_split _ _ _ _ H)
    as (pre & m & post & E & Hm & Hpre & ->).
  rewrite E. rewrite enumerate_from_app. cbn [enumerate_from].
  apply ArgMax_group; [| |lia].
  - intros e He. apply enumerate_from_In in He.
    apply (below_maximum g); auto. rewrite E. apply in_or_app. auto.
  - intros e He. apply enumerate_from_In in He.
    apply (not_above_maximum g); auto. rewrite E. apply in_or_app.
    simpl. auto.
Qed.

Lemma ArgMax_split pre m post :
  (forall x, In x pre -> lt T x m = true) ->
  (forall x, In x post -> lt T m x = false) ->
  ReduceGroup (Impl.policy T) (enumerate (pre ++ m :: post))
  = Z.of_nat (length pre).
Proof.
  intros Hpre Hpost. unfold enumerate.
  rewrite enumerate_from_app. cbn [enumerate_from].
  apply ArgMax_group; [| |lia]; intros e He;
    apply enumerate_from_In in He; auto.
Qed.

Lemma unique_first_maximum g p :
  unique_maximum T g p -> first_maximum T g = Some (Z.of_nat p).
Proof.
  intros [(m & Hp & Hm) Hq]. unfold first_maximum.
  rewrite (find_from_nth _ 0 g p m); auto.
  intros q y Hlt. apply Hq. lia.
Qed.
End ArgMax.

(** ** ArgMin *)

Section ArgMin.
Variable T : Dtype.
Import NativeArgMinOp.
Abbreviation accN := (Impl.MinAndArgMin T).
Abbreviation stepN := (step (Impl.policy T)).

Lemma ArgMin_step (a : accN) (e : El T * Z) :
  stepN a e =
  if (Impl.argmin a <? 0) || gt T (Impl.min a) (fst e)
  then Impl.mk (fst e) (snd e) else a.
Proof. reflexivity. Qed.

Lemma ArgMin_before m pre (a : accN) :
  Impl.argmin a < 0 \/ gt T (Impl.min a) m = true ->
  (forall e, In e pre -> gt T (fst e) m = true) ->
  let a' := fold_left stepN pre a in
  Impl.argmin a' < 0 \/ gt T (Impl.min a') m = true.
Proof.
  revert a. induction pre as [|e pre IH]; cbn [fold_left];
    intros a Ha Hpre; auto.
  apply IH; [|intros; apply Hpre; now right]. rewrite ArgMin_step.
  destruct (_ || _); cbn [Impl.min Impl.argmin]; auto.
  right. apply Hpre. now left.
Qed.

Lemma ArgMin_after m j post :
  0 <= j ->
  (forall e, In e post -> gt T m (fst e) = false) ->
  fold_left stepN post (Impl.mk m j) = Impl.mk m j.
Proof.
  intros Hj. induction post as [|e post IH]; cbn [fold_left];
    intros Hpost; auto.
  rewrite ArgMin_step. cbn [Impl.min Impl.argmin].
  rewrite (Hpost e) by now left.
  replace (j <? 0) with false by (symmetry; apply Z.ltb_ge; lia).
  cbn [orb]. apply IH. intros; apply Hpost; now right.
Qed.

Lemma ArgMin_group pre m j post :
  (forall e, In e pre -> gt T (fst e) m = true) ->
  (forall e, In e post -> gt T m (fst e) = false) ->
  0 <= j ->
  ReduceGroup (Impl.policy T) (pre ++ (m, j) :: post) = j.
Proof.
  intros Hpre Hpost Hj. unfold ReduceGroup.
  rewrite fold_left_app. cbn [fold_left].
  assert (Hb := ArgMin_before m pre (Impl.Identity T)
                  (or_introl (eq_refl : (-1 ?= 0) = Lt)) Hpre).
  cbv zeta in Hb. change (Policy.Identity (Impl.policy T))
    with (Impl.Identity T).
  rewrite ArgMin_step. cbn [fst snd].
  replace (_ || _) with true.
  - now rewrite ArgMin_after.
  - symmetry. apply orb_true_iff.
    destruct Hb as [Hb|Hb]; [left; now apply Z.ltb_lt | now right].
Qed.

Lemma above_minimum g m x :
  is_minimum T g m = true -> In x g -> is_minimum T g x = false ->
  gt T x m = true.
Proof.
  unfold is_minimum, gt. intros Hm Hx Hnx.
  rewrite forallb_forall in Hm.
  destruct (forallb_false _ _ Hnx) as (y & Hy & Hxy).
  pose proof (Hm x Hx) as Hmx. pose proof (Hm y Hy) as Hmy.
  unfold le in *.
  rewrite !andb_true_iff, !negb_true_iff in Hmx, Hmy.
  destruct Hmx as [[Nm Nx] _], Hmy as [[_ Ny] Hym].
  rewrite Ny, Nx in Hxy. simpl in Hxy. rewrite negb_false_iff in Hxy.
  destruct (lt_cotrans T y x m Hxy Nm) as [H|H]; congruence.
Qed.

Lemma not_below_minimum g m x :
  is_minimum T g m = true -> In x g -> gt T m x = false.
Proof.
  unfold is_minimum, gt. intros Hm Hx. rewrite forallb_forall in Hm.
  specialize (Hm x Hx). unfold le in Hm.
  rewrite !andb_true_iff, !negb_true_iff in Hm. tauto.
Qed.

Lemma ArgMin_split pre m post :
  (forall x, In x pre -> gt T x m = true) ->
  (forall x, In x post -> gt T m x = false) ->
  ReduceGroup (Impl.policy T) (enumerate (pre ++ m :: post))
  = Z.of_nat (length pre).
Proof.
  intros Hpre Hpost. unfold enumerate.
  rewrite enumerate_from_app. cbn [enumerate_from].
  apply ArgMin_group; [| |lia]; intros e He;
    apply enumerate_from_In in He; auto.
Qed.

Lemma ArgMin_first_minimum g p :
  first_minimum T g = Some p ->
  ReduceGroup (Impl.policy T) (enumerate g) = p.
Proof.
  unfold first_minimum, enumerate. intros H.
  destruct (find_from_split _ _ _ _ H)
    as (pre & m & post & E & Hm & Hpre & ->).
  rewrite E. rewrite enumerate_from_app. cbn [enumerate_from].
  apply ArgMin_group; [| |lia].
  - intros e He. apply enumerate_from_In in He.
    apply (above_minimum g); auto. rewrite E. apply in_or_app. auto.
  - intros e He. apply enumerate_from_In in He.
    apply (not_below_minimum g); auto. rewrite E. apply in_or_app.
    simpl. auto.
Qed.
End ArgMin.

(** ** The engine, output element by output element *)

Lemma Reduce_length {T : Dtype} {Out Accum : Type}
    (a : Array T) (axis : Axes) (impl : Policy.t (El T) Out Accum) :
  length (Reduce a axis impl) = length (groups a axis).
Proof. unfold Reduce, ReduceGroups. now rewrite !length_map. Qed.

Lemma Reduce_nth {T : Dtype} {Out Accum : Type}
    (a : Array T) (axis : Axes) (impl : Policy.t (El T) Out Accum) k g :
  nth_error (groups a axis) k = Some g ->
  nth_error (Reduce a axis impl) k = Some (ReduceGroup impl (enumerate g)).
Proof.
  intros H. unfold Reduce, ReduceGroups.
  rewrite map_map, nth_error_map, H. reflexivity.
Qed.

(** ** NaN in ArgMax *)

Section ArgMaxNaN.
Variable T : Dtype.
Import NativeArgMaxOp.

Lemma ArgMax_keeps_on_nan (next accum : Impl.MaxAndArgMax T) :
  0 <= Impl.argmax accum ->
  IsNan T (Impl.max next) = true \/ IsNan T (Impl.max accum) = true ->
  Impl.Reduce T next accum = accum.
Proof.
  intros Hi Hnan. unfold Impl.Reduce.
  replace (Impl.argmax accum <? 0) with false
    by (symmetry; apply Z.ltb_ge; lia).
  destruct Hnan as [H|H];
    [rewrite (lt_nan_r T _ _ H) | rewrite (lt_nan_l T _ _ H)]; reflexivity.
Qed.

Lemma ArgMax_nan_first x i g :
  0 <= i -> IsNan T x = true ->
  ReduceGroup (Impl.policy T) ((x, i) :: g) = i.
Proof.
  intros Hi Hx.
  apply (ArgMax_group T [] x i g);
    [intros e [] | intros e _; now apply lt_nan_l | exact Hi].
Qed.

Lemma ArgMax_skips_nan g (accum : Impl.MaxAndArgMax T) :
  0 <= Impl.argmax accum ->
  Forall (fun e => 0 <= snd e) g ->
  fold_left (step (Impl.policy T)) g accum =
  fold_left (step (Impl.policy T)) (filter (not_nan T) g) accum.
Proof.
  intros Hi Hg. revert accum Hi.
  induction Hg as [|e g He Hg IH]; cbn [fold_left filter]; intros accum Hi;
    auto.
  unfold not_nan at 1. destruct (IsNan T (fst e)) eqn:E; cbn [negb].
  - change (step (Impl.policy T) accum e)
      with (Impl.Reduce T (Impl.MapIn T (fst e) (snd e)) accum).
    rewrite ArgMax_keeps_on_nan; auto.
  - cbn [fold_left]. apply IH. rewrite ArgMax_step.
    destruct (_ || _); auto.
Qed.
End ArgMaxNaN.

(** ** Policies that ignore the position *)

Section IndexBlind.
Context {In Out Accum : Type}.
Variable impl : Policy.t In Out Accum.
Hypothesis blind :
  forall x i j, Policy.MapIn impl x i = Policy.MapIn impl x j.

Lemma fold_index_blind g1 g2 accum :
  map fst g1 = map fst g2 ->
  fold_left (step impl) g1 accum = fold_left (step impl) g2 accum.
Proof.
  revert g2 accum.
  induction g1 as [|[x i] g1 IH]; intros [|[y j] g2] accum; simpl;
    try discriminate; auto.
  intros [= -> H]. unfold step at 2 4. simpl. rewrite (blind y i j).
  now apply IH.
Qed.

Lemma ReduceGroups_index_blind gs1 gs2 :
  map (map fst) gs1 = map (map fst) gs2 ->
  ReduceGroups impl gs1 = ReduceGroups impl gs2.
Proof.
  revert gs2. induction gs1 as [|g1 gs1 IH]; intros [|g2 gs2]; simpl;
    try discriminate; auto.
  intros [= H1 H2]. f_equal; [|now apply IH].
  unfold ReduceGroup. f_equal. now apply fold_index_blind.
Qed.
End IndexBlind.

(** ** Shapes of the output *)

Lemma select_enumerate keep k s :
  select keep k s =
  map fst (filter (fun e => keep (snd e)) (enumerate_from k s)).
Proof.
  revert k. induction s as [|n s IH]; simpl; intros k; auto.
  destruct (keep k); simpl; now rewrite IH.
Qed.

Lemma collapse_enumerate axis k s :
  collapse axis k s =
  map (fun e => if is_reduced axis (snd e) then 1 else fst e)
      (enumerate_from k s).
Proof.
  revert k. induction s as [|n s IH]; simpl; intros k; auto.
  now rewrite IH.
Qed.

Lemma shape_eqb_eq s t : shape_eqb s t = true <-> s = t.
Proof. unfold shape_eqb. destruct (list_eq_dec Z.eq_dec s t); easy. Qed.

Lemma shape_eqb_neq s t : shape_eqb s t = false <-> s <> t.
Proof. unfold shape_eqb. destruct (list_eq_dec Z.eq_dec s t); easy. Qed.

Lemma all_axes_nonempty_false s axis i :
  In i axis -> dim s i = Some 0 -> all_axes_nonempty s axis = false.
Proof.
  intros Hi Hd. unfold all_axes_nonempty.
  destruct (forallb _ axis) eqn:E; auto.
  rewrite forallb_forall in E. specialize (E i Hi). now rewrite Hd in E.
Qed.

Lemma all_axes_nonempty_true s axis :
  (forall i, In i axis -> exists n, dim s i = Some n /\ 0 < n) ->
  all_axes_nonempty s axis = true.
Proof.
  intros H. apply forallb_forall. intros i Hi.
  destruct (H i Hi) as (n & -> & Hn). now apply Z.ltb_lt.
Qed.

(** ** AMax *)

Section AMax.
Variable T : Dtype.
Import NativeAMaxOp.
Abbreviation stepA := (step (Impl.policy T)).

Lemma AMax_step (accum : El T) (e : El T * Z) :
  stepA accum e =
  if IsNan T (fst e) || lt T accum (fst e) then fst e else accum.
Proof. reflexivity. Qed.

(** A NaN in the accumulator stays a NaN. *)
Lemma AMax_nan_stays g (accum : El T) :
  IsNan T accum = true -> IsNan T (fold_left stepA g accum) = true.
Proof.
  revert accum. induction g as [|e g IH]; cbn [fold_left]; intros accum H;
    auto.
  apply IH. rewrite AMax_step, (lt_nan_l T _ _ H), orb_false_r.
  destruct (IsNan T (fst e)) eqn:E; auto.
Qed.

Lemma AMax_nan g (accum : El T) :
  has_nan T (map fst g) = true ->
  IsNan T (fold_left stepA g accum) = true.
Proof.
  unfold has_nan. revert accum.
  induction g as [|e g IH]; cbn [fold_left map existsb]; intros accum;
    [discriminate|].
  destruct (IsNan T (fst e)) eqn:E; cbn [orb].
  - intros _. apply AMax_nan_stays. now rewrite AMax_step, E.
  - apply IH.
Qed.

(** Without NaN the fold ends on the accumulator or on an element of the
    group, which nothing in the group and not the accumulator exceeds. *)
Lemma AMax_fold g (accum : El T) :
  has_nan T (map fst g) = false -> IsNan T accum = false ->
  let r := fold_left stepA g accum in
  IsNan T r = false /\ lt T r accum = false /\
  (forall x, In x (map fst g) -> lt T r x = false) /\
  (r = accum \/ In r (map fst g)).
Proof.
  unfold has_nan. revert accum.
  induction g as [|e g IH]; cbn [fold_left map existsb]; intros accum Hg Ha.
  - cbv zeta. repeat split; auto using lt_irrefl. intros x [].
  - apply orb_false_iff in Hg. destruct Hg as [He Hg].
    rewrite AMax_step, He. cbn [orb].
    destruct (lt T accum (fst e)) eqn:E.
    + destruct (IH (fst e) Hg He) as (Nr & Hre & Hrg & Hin).
      cbv zeta. repeat split; auto.
      * destruct (lt T (fold_left stepA g (fst e)) accum) eqn:C; auto.
        rewrite (lt_trans T _ _ _ C E) in Hre. discriminate.
      * intros x [<-|Hx]; auto.
      * right. destruct Hin as [->|Hin]; [now left|now right].
    + destruct (IH accum Hg Ha) as (Nr & Hra & Hrg & Hin).
      cbv zeta. repeat split; auto.
      * intros x [<-|Hx]; auto.
        destruct (lt T (fold_left stepA g accum) (fst e)) eqn:C; auto.
        destruct (lt_cotrans T _ _ accum C Ha); congruence.
      * destruct Hin as [->|Hin]; [now left|right; now right].
Qed.

Lemma AMax_group_nan g :
  has_nan T g = true ->
  IsNan T (ReduceGroup (Impl.policy T) (enumerate g)) = true.
Proof.
  intros H. unfold ReduceGroup. apply AMax_nan.
  unfold enumerate. now rewrite enumerate_from_fst.
Qed.

Lemma AMax_group_maximum g :
  has_nan T g = false -> g <> [] ->
  Forall (fun x => valid T x = true) g ->
  let v := ReduceGroup (Impl.policy T) (enumerate g) in
  In v g /\ is_maximum T g v = true.
Proof.
  intros Hn Hne Hv. unfold ReduceGroup.
  change (Policy.MapOut (Impl.policy T)) with (fun x : El T => x).
  change (Policy.Identity (Impl.policy T)) with (LowestOrInf T).
  assert (Hlow : IsNan T (LowestOrInf T) = false) by (destruct T; reflexivity).
  pose proof (AMax_fold (enumerate g) (LowestOrInf T)) as H.
  unfold enumerate in *. rewrite enumerate_from_fst in H.
  specialize (H Hn Hlow). cbv zeta in *.
  destruct H as (Nr & _ & Hg & Hin).
  set (r := fold_left stepA (enumerate_from 0 g) (LowestOrInf T)) in *.
  assert (Hnan : forall x, In x g -> IsNan T x = false).
  { intros x Hx. destruct (IsNan T x) eqn:E; auto.
    unfold has_nan in Hn. rewrite <- Hn. symmetry.
    apply existsb_exists. eauto. }
  split.
  - destruct Hin as [Hr|Hin]; auto.
    destruct g as [|x g]; [now elim Hne|].
    assert (x = LowestOrInf T) as ->.
    { apply lt_lowest.
      - now inversion Hv.
      - apply Hnan. now left.
      - rewrite <- Hr. apply Hg. now left. }
    rewrite Hr. now left.
  - apply forallb_forall. intros x Hx. unfold le.
    now rewrite (Hnan x Hx), Nr, (Hg x Hx).
Qed.
End AMax.

(** The elements of a group are elements of the input. *)
Lemma at_offset_In {A : Type} (l : list A) i x :
  In x (at_offset l i) -> In x l.
Proof.
  unfold at_offset. destruct (nth_error l (Z.to_nat i)) eqn:E; [|easy].
  intros [<-|[]]. eapply nth_error_In, E.
Qed.

Lemma groups_In {T : Dtype} (a : Array T) axis k g x :
  nth_error (groups a axis) k = Some g -> In x g -> In x (data a).
Proof.
  intros Hk Hx. apply nth_error_In in Hk. unfold groups in Hk.
  apply in_map_iff in Hk. destruct Hk as (c & <- & _).
  unfold group in Hx. apply in_flat_map in Hx.
  destruct Hx as (c' & _ & Hx). eapply at_offset_In, Hx.
Qed.

(** ** Reducing an axis of length 1 *)

Lemma map_flat_map {A B C : Type} (f : B -> C) (g : A -> list B) l :
  map f (flat_map g l) = flat_map (fun x => map f (g x)) l.
Proof.
  induction l as [|x l IH]; simpl; auto. now rewrite map_app, IH.
Qed.

Lemma of_nat_seq_shift len start c :
  map Z.of_nat (seq (start + c) len) =
  map (fun j => Z.of_nat c + j) (map Z.of_nat (seq start len)).
Proof.
  revert start. induction len as [|len IH]; simpl; intros start; auto.
  f_equal; [lia|]. apply (IH (S start)).
Qed.

Lemma range_add a b :
  0 <= a -> 0 <= b ->
  range (a + b) = range a ++ map (fun j => a + j) (range b).
Proof.
  intros Ha Hb. unfold range.
  rewrite Z2Nat.inj_add, seq_app, map_app by lia. f_equal.
  rewrite (of_nat_seq_shift _ 0 (Z.to_nat a)), Z2Nat.id by lia.
  reflexivity.
Qed.

Lemma range_mul n m :
  0 <= n -> 0 <= m ->
  range (n * m) = flat_map (fun i => map (fun j => i * m + j) (range m))
                           (range n).
Proof.
  intros Hn Hm. revert n Hn. apply natlike_ind; [reflexivity|].
  intros n Hn IH. unfold Z.succ.
  rewrite Z.mul_add_distr_r, Z.mul_1_l, range_add by nia.
  rewrite (range_add n 1), flat_map_app, IH by lia.
  f_equal. change (range 1) with [0]. cbn [map flat_map].
  now rewrite app_nil_r, Z.add_0_r.
Qed.

Lemma TotalSize_nonneg s : Forall (fun n => 0 <= n) s -> 0 <= TotalSize s.
Proof.
  induction 1 as [|n s Hn Hs IH]; simpl; [lia|]. now apply Z.mul_nonneg_nonneg.
Qed.

(** The row-major offsets of the coordinates of a shape, in order, are
    0, 1, 2, ... *)
Lemma offset_from_indices s :
  Forall (fun n => 0 <= n) s ->
  forall acc,
    map (offset_from acc s) (indices s) =
    map (fun i => acc * TotalSize s + i) (range (TotalSize s)).
Proof.
  induction 1 as [|n s Hn Hs IH]; intros acc.
  - change (range (TotalSize [])) with [0]. cbn. f_equal. lia.
  - cbn [indices TotalSize fold_right].
    fold (TotalSize s).
    rewrite map_flat_map, range_mul by auto using TotalSize_nonneg.
    rewrite map_flat_map. apply flat_map_ext. intros i.
    rewrite !map_map. cbn [offset_from].
    etransitivity; [exact (IH (acc * n + i))|].
    apply map_ext. intros j. ring.
Qed.

Lemma offset_indices s :
  Forall (fun n => 0 <= n) s ->
  map (offset s) (indices s) = range (TotalSize s).
Proof.
  intros H. unfold offset. rewrite offset_from_indices by exact H.
  rewrite <- (map_id (range _)) at 2. apply map_ext. intros; lia.
Qed.

Lemma at_offset_seq {A : Type} (l : list A) :
  map (fun i => at_offset l (Z.of_nat i)) (seq 0 (length l)) =
  map (fun x => [x]) l.
Proof.
  induction l as [|x l IH]; [reflexivity|].
  cbn [length seq map]. f_equal.
  rewrite <- seq_shift, map_map, <- IH. apply map_ext. intros i.
  unfold at_offset. now rewrite !Nat2Z.id.
Qed.

Lemma at_offset_range {A : Type} (l : list A) :
  map (at_offset l) (range (Z.of_nat (length l))) = map (fun x => [x]) l.
Proof.
  unfold range. now rewrite Nat2Z.id, map_map, at_offset_seq.
Qed.

Lemma indices_length s c : In c (indices s) -> length c = length s.
Proof.
  revert c. induction s as [|n s IH]; cbn [indices]; intros c.
  - intros [<-|[]]. reflexivity.
  - rewrite in_flat_map. intros (i & _ & Hc).
    apply in_map_iff in Hc. destruct Hc as (c' & <- & Hc').
    cbn. f_equal. auto.
Qed.

Section UnitAxis.
Variable k : Z.

Lemma is_reduced_single j : is_reduced [k] j = (j =? k).
Proof. unfold is_reduced. cbn. apply orb_false_r. Qed.

(** Past the reduced axis nothing is selected for reduction, and a
    coordinate is merged unchanged. *)
Lemma select_past j s :
  k < j ->
  select (is_reduced [k]) j s = [] /\
  select (fun i => negb (is_reduced [k] i)) j s = s.
Proof.
  revert j. induction s as [|n s IH]; cbn [select]; intros j Hj; auto.
  rewrite is_reduced_single.
  replace (j =? k) with false by (symmetry; apply Z.eqb_neq; lia).
  cbn [negb]. destruct (IH (j + 1)) as [-> ->]; [lia|]. auto.
Qed.

Lemma merge_past j s c r :
  k < j -> length c = length s -> merge [k] j s c r = c.
Proof.
  revert j c. induction s as [|n s IH]; intros j [|i c] Hj Hc;
    cbn [merge]; try discriminate; auto.
  injection Hc as Hc. rewrite is_reduced_single.
  replace (j =? k) with false by (symmetry; apply Z.eqb_neq; lia).
  f_equal. apply IH; [lia|exact Hc].
Qed.

Lemma select_unit j s n :
  j <= k -> nth_error s (Z.to_nat (k - j)) = Some n ->
  select (is_reduced [k]) j s = [n].
Proof.
  revert j. induction s as [|m s IH]; intros j Hj.
  - destruct (Z.to_nat (k - j)); discriminate.
  - cbn [select]. rewrite is_reduced_single.
    destruct (Z.eqb_spec j k) as [->|Hne].
    + rewrite Z.sub_diag. cbn. intros [= ->].
      now rewrite (proj1 (select_past (k + 1) s ltac:(lia))).
    + replace (Z.to_nat (k - j)) with (S (Z.to_nat (k - (j + 1)))) by lia.
      cbn [nth_error]. apply IH. lia.
Qed.

(** Merging the coordinate 0 of a unit axis into the coordinates of the
    remaining axes enumerates the coordinates of the whole shape. *)
Lemma merge_unit j s :
  j <= k -> nth_error s (Z.to_nat (k - j)) = Some 1 ->
  map (fun c => merge [k] j s c [0])
      (indices (select (fun i => negb (is_reduced [k] i)) j s))
  = indices s.
Proof.
  revert j. induction s as [|n s IH]; intros j Hj.
  - destruct (Z.to_nat (k - j)); discriminate.
  - cbn [select merge]. rewrite is_reduced_single.
    destruct (Z.eqb_spec j k) as [->|Hne].
    + rewrite Z.sub_diag. cbn [Z.to_nat nth_error negb]. intros [= ->].
      rewrite (proj2 (select_past (k + 1) s ltac:(lia))).
      cbn [indices]. change (range 1) with [0]. cbn [flat_map].
      rewrite app_nil_r. apply map_ext_in. intros c Hc. f_equal.
      apply merge_past; [lia|]. now apply indices_length.
    + replace (Z.to_nat (k - j)) with (S (Z.to_nat (k - (j + 1)))) by lia.
      cbn [nth_error negb indices]. intros Hn.
      rewrite map_flat_map. apply flat_map_ext. intros i.
      rewrite map_map. cbn [merge].
      rewrite <- (IH (j + 1) ltac:(lia) Hn) at 1.
      now rewrite map_map.
Qed.

(** Over a unit axis every group is one element of the input, in order. *)
Lemma groups_unit_axis {T : Dtype} (a : Array T) :
  well_formed a -> dim (shape a) k = Some 1 ->
  groups a [k] = map (fun x => [x]) (data a).
Proof.
  intros [Hs Hlen] Hk. unfold dim in Hk.
  destruct (Z.ltb_spec k 0) as [|Hk0]; [discriminate|].
  assert (Hn : nth_error (shape a) (Z.to_nat (k - 0)) = Some 1)
    by now rewrite Z.sub_0_r.
  unfold groups, group, reduced_shape, dropped_shape.
  rewrite (select_unit 0 _ 1 Hk0 Hn).
  change (indices [1]) with [[0]]. cbn [flat_map].
  rewrite <- at_offset_range, Hlen, <- (offset_indices _ Hs).
  rewrite <- (merge_unit 0 (shape a) Hk0 Hn) at 1.
  rewrite !map_map. apply map_ext. intros c. apply app_nil_r.
Qed.

Lemma Reduce_unit_axis {T : Dtype} {Out Accum : Type} (a : Array T)
    (impl : Policy.t (El T) Out Accum) :
  well_formed a -> dim (shape a) k = Some 1 ->
  Reduce a [k] impl = map (fun x => ReduceGroup impl [(x, 0)]) (data a).
Proof.
  intros Hwf Hk. unfold Reduce, ReduceGroups.
  rewrite (groups_unit_axis a Hwf Hk), !map_map. reflexivity.
Qed.
End UnitAxis.

(** ** One-element groups *)

Lemma range_In n i : 0 <= i < n -> In i (range n).
Proof.
  intros H. unfold range. apply in_map_iff. exists (Z.to_nat i).
  split; [lia|]. apply in_seq. lia.
Qed.

Lemma SFsame_eq x y : SFsame x y = true -> x = y.
Proof.
  destruct x as [s|s| |s m e], y as [s'|s'| |s' m' e']; simpl;
    try discriminate; auto.
  - intros H. apply eqb_prop in H. now subst.
  - intros H. apply eqb_prop in H. now subst.
  - rewrite !andb_true_iff. intros [[Hs Hm] He].
    apply eqb_prop in Hs. apply Pos.eqb_eq in Hm. apply Z.eqb_eq in He.
    now subst.
Qed.

Lemma digits2_pos_bound m : Zpos m < 2 ^ Zpos (digits2_pos m).
Proof.
  induction m as [m IH|m IH|]; cbn [digits2_pos];
    rewrite ?Pos2Z.inj_succ, ?Z.pow_succ_r by lia; lia.
Qed.

(** A finite [Float16] has a mantissa below 2^11 and an exponent between
    -24 and 5. *)
Lemma half_bounds m e :
  bounded (prec kFloat16) (emax kFloat16) m e = true ->
  1 <= Zpos m < 1 + 2047 /\ - (24) <= e < 30 - 24.
Proof.
  unfold bounded, canonical_mantissa, fexp, emin. cbn [prec emax].
  rewrite andb_true_iff, Z.eqb_eq, Z.leb_le. intros [Hc He].
  assert (Hd : Zpos (digits2_pos m) <= 11) by lia.
  pose proof (digits2_pos_bound m) as Hm.
  pose proof (Z.pow_le_mono_r 2 _ 11 ltac:(lia) Hd) as Hp.
  change (2 ^ 11) with 2048 in Hp. lia.
Qed.

Lemma halves_unchanged_true :
  on_grid (bounded (prec kFloat16) (emax kFloat16))
          (half_unchanged false) (half_unchanged true) 2047 30 1 24 = true.
Proof. vm_compute. reflexivity. Qed.

Lemma on_grid_true (v f g : positive -> Z -> bool) (w h : Z) (m0 e0 : Z) :
  on_grid v f g w h m0 e0 = true ->
  forall m e, m0 <= Zpos m < m0 + w -> - e0 <= e < h - e0 ->
    v m e = true -> f m e = true /\ g m e = true.
Proof.
  unfold on_grid. intros H m e Hm He Hv. rewrite forallb_forall in H.
  specialize (H (e + e0) (range_In h (e + e0) ltac:(lia))).
  rewrite forallb_forall in H.
  specialize (H (Zpos m - m0) (range_In w (Zpos m - m0) ltac:(lia))).
  replace (m0 + (Zpos m - m0)) with (Zpos m) in H by lia.
  replace (e + e0 - e0) with e in H by lia.
  rewrite Pos2Z.id, Hv in H. now apply andb_true_iff in H.
Qed.

Lemma half_unchanged_true s m e :
  bounded (prec kFloat16) (emax kFloat16) m e = true ->
  half_unchanged s m e = true.
Proof.
  intros Hv. pose proof (half_bounds m e Hv) as [Hm He].
  destruct (on_grid_true _ _ _ _ _ _ _ halves_unchanged_true m e Hm He Hv)
    as [Hf Ht].
  destruct s; assumption.
Qed.

Lemma sum_of_one_half (x : El kFloat16) :
  valid kFloat16 x = true -> is_negative_zero kFloat16 x = false ->
  sum_of_one kFloat16 kFloat16 x = x.
Proof.
  destruct x as [[]|s| |s m e];
    [discriminate|reflexivity|reflexivity|reflexivity|].
  intros Hv _. unfold valid, valid_binary in Hv.
  apply SFsame_eq. exact (half_unchanged_true s m e Hv).
Qed.

Lemma wrap_valid T (z : Z) :
  is_float T = false -> (int_min T <=? z) && (z <=? int_max T) = true ->
  wrap T z = z.
Proof.
  rewrite andb_true_iff, !Z.leb_le.
  destruct T; try discriminate; intros _ H; unfold wrap;
    cbn [int_min int_max] in *;
    try (rewrite Z.mod_small by lia; lia).
  destruct (Z.eqb_spec z 0); lia.
Qed.

Lemma SFround_add_zero p em x :
  valid_binary p em x = true ->
  match x with S754_zero true => true | _ => false end = false ->
  SFround p em (SFadd p em (S754_zero false) (SFround p em x)) = x.
Proof.
  destruct x as [[]|s| |s m e]; cbn [valid_binary]; intros Hv Hz;
    [discriminate|reflexivity|reflexivity|reflexivity|].
  unfold SFround at 2. rewrite Hv. cbn [SFadd]. unfold SFround.
  now rewrite Hv.
Qed.

Lemma sum_of_one_same T (x : El T) :
  valid T x = true -> is_negative_zero T x = false ->
  sum_of_one T T x = x.
Proof.
  destruct T;
    try (intros Hv _;
         match goal with
         | |- sum_of_one ?T ?T x = x =>
             change (wrap T (wrap T (0 + wrap T x)) = x);
             now rewrite (wrap_valid T x eq_refl Hv), Z.add_0_l,
               !(wrap_valid T x eq_refl Hv)
         end).
  - apply sum_of_one_half.
  - apply (SFround_add_zero (prec kFloat32) (emax kFloat32)).
  - apply (SFround_add_zero (prec kFloat64) (emax kFloat64)).
Qed.

Lemma AMax_of_one T (x : El T) :
  valid T x = true ->
  ReduceGroup (NativeAMaxOp.Impl.policy T) [(x, 0)] = x.
Proof.
  intros Hv. unfold ReduceGroup. cbn [fold_left]. rewrite AMax_step.
  cbn [fst Policy.MapOut Policy.Identity NativeAMaxOp.Impl.policy].
  unfold NativeAMaxOp.Impl.MapOut, NativeAMaxOp.Impl.Identity.
  destruct (IsNan T x) eqn:En; [reflexivity|]. cbn [orb].
  destruct (lt T (LowestOrInf T) x) eqn:El; [reflexivity|].
  symmetry. now apply lt_lowest.
Qed.

(** ** Remarks *)

(** The index ArgMax returns is relative to the group.  Labelling the
    elements of the scenario [[1,3,2],[4,0,6]] with their flat offsets into
    the input instead would have the second row answer 5. *)
Example ArgMax_index_is_relative_to_the_group :
  Reduce (@mkArray kInt32 [2; 3] [1; 3; 2; 4; 0; 6]) [1]
    (NativeArgMaxOp.Impl.policy kInt32) = [1; 2]
  /\ ReduceGroups (NativeArgMaxOp.Impl.policy kInt32)
       [[(1, 0); (3, 1); (2, 2)]; [(4, 3); (0, 4); (6, 5)]] = [1; 5].
Proof. split; reflexivity. Qed.

(** With no element seen the index stays -1: this is what the assertion on
    the reduced axes of ArgMax and ArgMin keeps out of the output. *)
Example ArgMax_of_no_element (T : Dtype) :
  ReduceGroup (NativeArgMaxOp.Impl.policy T) [] = -1
  /\ ReduceGroup (NativeArgMinOp.Impl.policy T) [] = -1.
Proof. split; reflexivity. Qed.

(** AMax has no such assertion: over an empty axis it returns its identity. *)
Example AMax_over_empty_axis :
  NativeAMaxOp.Call (@mkArray kInt8 [2; 0] []) [1] (@mkArray kInt8 [2] [0; 0])
  = Ok (@mkArray kInt8 [2] [-128; -128]).
Proof. reflexivity. Qed.

(** Sum starts from +0, and +0 + -0 is +0. *)
Example Sum_of_negative_zero :
  NativeSumOp.Call (@mkArray kFloat64 [1] [S754_zero true]) [0]
    (@mkArray kFloat64 [] [S754_zero false])
  = Ok (@mkArray kFloat64 [] [S754_zero false]).
Proof. reflexivity. Qed.

(** Sum into another element type converts. *)
Example Sum_converts :
  NativeSumOp.Call (@mkArray kInt32 [1] [300]) [0] (@mkArray kUInt8 [] [0])
  = Ok (@mkArray kUInt8 [] [44]).
Proof. reflexivity. Qed.

(** ** Properties of the adapters *)

(** C1.  ArgMax over groups whose reduced axes are all non-empty: the call
    returns a result, and for every group its output element is the
    position of the maximum when exactly one position holds it, and the
    smallest position holding a maximum when several do.  A maximum is an
    element that bounds the whole group (a group with a NaN has none); in
    terms of [<] alone, the output is the position of the element that
    exceeds all earlier ones and that no later one exceeds.  In particular
    ArgMax over the whole of [5,5,3,5] returns 0, at every element type. *)
Theorem ArgMax_returns_first_maximum :
  (forall (T : Dtype) (a : Array T) (axis : Axes) (out : Array kInt64),
      all_axes_nonempty (shape a) axis = true ->
      IsValidReductionShape (shape a) axis (shape out) false = true ->
      exists r,
        NativeArgMaxOp.Call a axis out = Ok (mkArray (shape out) r) /\
        length r = length (groups a axis) /\
        forall k g, nth_error (groups a axis) k = Some g ->
          (forall p, unique_maximum T g p ->
                     nth_error r k = Some (Z.of_nat p)) /\
          (forall p, first_maximum T g = Some p -> nth_error r k = Some p) /\
          (forall pre m post,
              g = pre ++ m :: post ->
              (forall x, In x pre -> lt T x m = true) ->
              (forall x, In x post -> lt T m x = false) ->
              nth_error r k = Some (Z.of_nat (length pre))))
  /\ (forall T : Dtype,
        NativeArgMaxOp.Call (mkArray [4] (ints T [5; 5; 3; 5])) [0]
          (@mkArray kInt64 [] [0])
        = Ok (@mkArray kInt64 [] [0])).
Proof.
  split.
  - intros T a axis out Hne Hvalid.
    exists (Reduce a axis (NativeArgMaxOp.Impl.policy T)).
    unfold NativeArgMaxOp.Call. rewrite Hne, Hvalid. cbn [negb].
    split; [reflexivity|]. split; [apply Reduce_length|].
    intros k g Hg. rewrite (Reduce_nth _ _ _ _ _ Hg).
    split; [|split].
    + intros p Hp. f_equal. apply ArgMax_first_maximum.
      now apply unique_first_maximum.
    + intros p Hp. f_equal. now apply ArgMax_first_maximum.
    + intros pre m post -> Hpre Hpost. f_equal. now apply ArgMax_split.
  - intros []; reflexivity.
Qed.

Lemma ArgMax_returns_first_maximum_witness :
  all_axes_nonempty (shape input_5535) [0] = true /\
  IsValidReductionShape (shape input_5535) [0] (shape out_scalar) false
  = true /\
  first_maximum kInt64 [5; 5; 3; 5] = Some 0 /\
  exists r,
    NativeArgMaxOp.Call input_5535 [0] out_scalar = Ok (mkArray [] r) /\
    nth_error r 0 = Some 0.
Proof.
  do 3 (split; [reflexivity|]).
  destruct (proj1 ArgMax_returns_first_maximum kInt64 input_5535 [0]
              out_scalar eq_refl eq_refl) as (r & Hr & _ & Hg).
  exists r. split; [exact Hr|].
  exact (proj1 (proj2 (Hg 0%nat [5; 5; 3; 5] eq_refl)) 0 eq_refl).
Defined.

(** C2.  AMax: the call returns a result in which the output element of a
    group that holds a NaN is a NaN, and the output element of a non-empty
    group without NaN is an element of the group that no element of the
    group exceeds, its maximum.  In particular AMax over [[1,NaN,2]] along
    axis 1 yields [NaN], at every floating type. *)
Theorem AMax_propagates_NaN_else_maximum :
  (forall (T : Dtype) (a : Array T) (axis : Axes) (out : Array T),
      IsValidReductionShape (shape a) axis (shape out) true = true ->
      Forall (fun x => valid T x = true) (data a) ->
      exists r,
        NativeAMaxOp.Call a axis out = Ok (mkArray (shape out) r) /\
        length r = length (groups a axis) /\
        forall k g, nth_error (groups a axis) k = Some g ->
          exists v,
            nth_error r k = Some v /\
            (has_nan T g = true -> IsNan T v = true) /\
            (has_nan T g = false -> g <> [] ->
             In v g /\ is_maximum T g v = true))
  /\ (forall T : Dtype,
        is_float T = true ->
        let one := int_of kFloat64 1 in
        let two := int_of kFloat64 2 in
        NativeAMaxOp.Call (mkArray [1; 3] (floats T [one; S754_nan; two]))
          [1] (mkArray [1] (floats T [one]))
        = Ok (mkArray [1] (floats T [S754_nan]))).
Proof.
  split.
  - intros T a axis out Hvalid Hdata.
    exists (Reduce a axis (NativeAMaxOp.Impl.policy T)).
    unfold NativeAMaxOp.Call. rewrite Hvalid. cbn [negb].
    split; [reflexivity|]. split; [apply Reduce_length|].
    intros k g Hg. eexists. split; [apply (Reduce_nth _ _ _ _ _ Hg)|].
    split.
    + apply AMax_group_nan.
    + intros Hn Hne. apply AMax_group_maximum; auto.
      apply Forall_forall. intros x Hx.
      rewrite Forall_forall in Hdata. apply Hdata.
      eapply groups_In; eauto.
  - intros []; try discriminate; reflexivity.
Qed.

Lemma AMax_propagates_NaN_else_maximum_witness :
  IsValidReductionShape (shape input_2x3) [1] (shape out_2_i32) true = true /\
  Forall (fun x => valid kInt32 x = true) (data input_2x3) /\
  (exists r v, NativeAMaxOp.Call input_2x3 [1] out_2_i32 = Ok (mkArray [2] r) /\
               nth_error r 1 = Some v /\
               In v [4; 0; 6] /\ is_maximum kInt32 [4; 0; 6] v = true) /\
  NativeAMaxOp.Call
    (mkArray [1; 3]
       (floats kFloat32 [int_of kFloat64 1; S754_nan; int_of kFloat64 2]))
    [1] (mkArray [1] (floats kFloat32 [int_of kFloat64 1]))
  = Ok (mkArray [1] (floats kFloat32 [S754_nan])).
Proof.
  assert (Hd : Forall (fun x => valid kInt32 x = true) (data input_2x3))
    by (repeat constructor).
  split; [reflexivity|]. split; [exact Hd|]. split.
  - destruct (proj1 AMax_propagates_NaN_else_maximum kInt32 input_2x3 [1]
                out_2_i32 eq_refl Hd) as (r & Hr & _ & Hg).
    destruct (Hg 1%nat [4; 0; 6] eq_refl) as (v & Hv & _ & Hmax).
    exists r, v. split; [exact Hr|]. split; [exact Hv|].
    apply Hmax; [reflexivity|discriminate].
  - exact (proj2 AMax_propagates_NaN_else_maximum kFloat32 eq_refl).
Defined.

(** C3.  ArgMin: the accumulator starts at [(T{}, -1)]; the combine step
    replaces it by the next element exactly when the stored index is
    negative or the stored minimum is strictly greater than the next value;
    hence, over non-empty groups, the call returns for every group the
    smallest position holding a minimum, the position of the element that
    is below all earlier ones and that no later one is below.  In
    particular ArgMin over the whole of [-1,-5,-2] returns 1, at every
    signed element type. *)
Theorem ArgMin_first_occurrence_wins :
  (forall T : Dtype,
      Policy.Identity (NativeArgMinOp.Impl.policy T)
      = NativeArgMinOp.Impl.mk (zero T) (-1))
  /\ (forall (T : Dtype) (next accum : NativeArgMinOp.Impl.MinAndArgMin T),
        let replace :=
          (NativeArgMinOp.Impl.argmin accum <? 0)
          || gt T (NativeArgMinOp.Impl.min accum)
                  (NativeArgMinOp.Impl.min next) in
        (replace = true ->
         Policy.Reduce (NativeArgMinOp.Impl.policy T) next accum = next) /\
        (replace = false ->
         Policy.Reduce (NativeArgMinOp.Impl.policy T) next accum = accum))
  /\ (forall (T : Dtype) (a : Array T) (axis : Axes) (out : Array kInt64),
        all_axes_nonempty (shape a) axis = true ->
        IsValidReductionShape (shape a) axis (shape out) false = true ->
        exists r,
          NativeArgMinOp.Impl a axis out = Ok (mkArray (shape out) r) /\
          length r = length (groups a axis) /\
          forall k g, nth_error (groups a axis) k = Some g ->
            (forall p, first_minimum T g = Some p ->
                       nth_error r k = Some p) /\
            (forall pre m post,
                g = pre ++ m :: post ->
                (forall x, In x pre -> gt T x m = true) ->
                (forall x, In x post -> gt T m x = false) ->
                nth_error r k = Some (Z.of_nat (length pre))))
  /\ (forall T : Dtype,
        is_signed T = true ->
        NativeArgMinOp.Impl (mkArray [3] (ints T [-1; -5; -2])) [0]
          (@mkArray kInt64 [] [0])
        = Ok (@mkArray kInt64 [] [1])).
Proof.
  split; [reflexivity|]. split; [|split].
  - intros T next accum replace. subst replace. simpl.
    unfold NativeArgMinOp.Impl.Reduce.
    split; intros ->; reflexivity.
  - intros T a axis out Hne Hvalid.
    exists (Reduce a axis (NativeArgMinOp.Impl.policy T)).
    unfold NativeArgMinOp.Impl. rewrite Hne, Hvalid. cbn [negb].
    split; [reflexivity|]. split; [apply Reduce_length|].
    intros k g Hg. rewrite (Reduce_nth _ _ _ _ _ Hg). split.
    + intros p Hp. f_equal. now apply ArgMin_first_minimum.
    + intros pre m post -> Hpre Hpost. f_equal. now apply ArgMin_split.
  - intros []; try discriminate; reflexivity.
Qed.

Lemma ArgMin_first_occurrence_wins_witness :
  all_axes_nonempty (shape input_m1_m5_m2) [0] = true /\
  IsValidReductionShape (shape input_m1_m5_m2) [0] (shape out_scalar) false
  = true /\
  first_minimum kInt64 [-1; -5; -2] = Some 1 /\
  (exists r,
      NativeArgMinOp.Impl input_m1_m5_m2 [0] out_scalar
      = Ok (mkArray [] r) /\
      nth_error r 0 = Some 1) /\
  NativeArgMinOp.Impl (mkArray [3] (ints kFloat32 [-1; -5; -2])) [0]
    (@mkArray kInt64 [] [0])
  = Ok (@mkArray kInt64 [] [1]).
Proof.
  do 3 (split; [reflexivity|]). split.
  - destruct (proj1 (proj2 (proj2 ArgMin_first_occurrence_wins))
                kInt64 input_m1_m5_m2 [0] out_scalar eq_refl eq_refl)
      as (r & Hr & _ & Hg).
    exists r. split; [exact Hr|].
    exact (proj1 (Hg 0%nat [-1; -5; -2] eq_refl) 1 eq_refl).
  - exact (proj2 (proj2 (proj2 ArgMin_first_occurrence_wins))
             kFloat32 eq_refl).
Defined.

(** C4.  ArgMax and ArgMin assert that every reduced axis is non-empty: if
    some axis of the reduction has size 0 in the input shape, both calls
    fail that assertion and produce no result; if every reduced axis has a
    positive size the assertion passes and the call goes on to the shape
    assertion and the engine.  In particular an input of shape (0,3)
    reduced over axis 0 fails the assertion. *)
Theorem ArgMax_ArgMin_reject_empty_axes :
  forall (T : Dtype) (a : Array T) (axis : Axes) (out : Array kInt64),
    ((exists i, In i axis /\ dim (shape a) i = Some 0) ->
     NativeArgMaxOp.Call a axis out = AssertionFailed ReducedAxesNonEmpty /\
     NativeArgMinOp.Impl a axis out = AssertionFailed ReducedAxesNonEmpty)
    /\ ((forall i, In i axis -> exists n, dim (shape a) i = Some n /\ 0 < n) ->
        NativeArgMaxOp.Call a axis out
        = (if IsValidReductionShape (shape a) axis (shape out) false
           then Ok (@mkArray kInt64 (shape out)
                      (Reduce a axis (NativeArgMaxOp.Impl.policy T)))
           else AssertionFailed ValidReductionShape) /\
        NativeArgMinOp.Impl a axis out
        = (if IsValidReductionShape (shape a) axis (shape out) false
           then Ok (@mkArray kInt64 (shape out)
                      (Reduce a axis (NativeArgMinOp.Impl.policy T)))
           else AssertionFailed ValidReductionShape))
    /\ NativeArgMaxOp.Call (@mkArray T [0; 3] []) [0] out
       = AssertionFailed ReducedAxesNonEmpty
    /\ NativeArgMinOp.Impl (@mkArray T [0; 3] []) [0] out
       = AssertionFailed ReducedAxesNonEmpty.
Proof.
  intros T a axis out. split; [|split; [|split; reflexivity]].
  - intros (i & Hi & Hd).
    unfold NativeArgMaxOp.Call, NativeArgMinOp.Impl.
    rewrite (all_axes_nonempty_false _ _ _ Hi Hd). split; reflexivity.
  - intros H. unfold NativeArgMaxOp.Call, NativeArgMinOp.Impl.
    rewrite (all_axes_nonempty_true _ _ H). cbn [negb].
    destruct (IsValidReductionShape _ _ _ _); split; reflexivity.
Qed.

Lemma ArgMax_ArgMin_reject_empty_axes_witness :
  (In 0 [0] /\ dim (shape input_0x3) 0 = Some 0) /\
  NativeArgMaxOp.Call input_0x3 [0] out_3
  = AssertionFailed ReducedAxesNonEmpty /\
  NativeArgMinOp.Impl input_0x3 [0] out_3
  = AssertionFailed ReducedAxesNonEmpty /\
  NativeArgMaxOp.Call input_2x3_f32 [0] out_3
  = Ok (@mkArray kInt64 [3] [1; 0; 1]).
Proof.
  assert (H0 : In 0 [0] /\ dim (shape input_0x3) 0 = Some 0)
    by (split; [left|]; reflexivity).
  split; [exact H0|].
  destruct (proj1 (ArgMax_ArgMin_reject_empty_axes
                     kFloat32 input_0x3 [0] out_3)
              (ex_intro _ 0 H0)) as [Hmax Hmin].
  split; [exact Hmax|]. split; [exact Hmin|].
  refine (eq_trans
            (proj1 (proj1 (proj2 (ArgMax_ArgMin_reject_empty_axes
                                    kFloat32 input_2x3_f32 [0] out_3)) _))
            eq_refl).
  intros i [<-|[]]. exists 2. split; [reflexivity|lia].
Defined.

(** C5.  Sum accumulates in [float] when the output type is [Float16] and in
    the output type otherwise, so the accumulator type differs from the
    output type exactly for [Float16].  The identity is 0, [MapIn] casts the
    input element to the accumulator type, [Reduce] is [accum += next] and
    [MapOut] casts the accumulator to the output type: the output element
    of a group is the cast of the left-to-right sum of the cast elements. *)
Theorem Sum_accumulates_in_widened_type :
  forall In Out : Dtype,
    let Accum := NativeSumOp.Impl.Accum Out in
    let impl := NativeSumOp.Impl.policy In Out in
    (Out = kFloat16 -> Accum = kFloat32)
    /\ (Out <> kFloat16 -> Accum = Out)
    /\ (Accum <> Out <-> Out = kFloat16)
    /\ Policy.Identity impl = zero Accum
    /\ (forall x i, Policy.MapIn impl x i = static_cast In Accum x)
    /\ (forall next accum, Policy.Reduce impl next accum = add Accum accum next)
    /\ (forall accum, Policy.MapOut impl accum = static_cast Accum Out accum)
    /\ (forall g : list (El In * Z),
          ReduceGroup impl g =
          static_cast Accum Out
            (fold_left (fun accum x => add Accum accum (static_cast In Accum x))
                       (map fst g) (zero Accum))).
Proof.
  intros In Out Accum impl. subst Accum impl.
  split; [intros ->; reflexivity|].
  split; [destruct Out; try reflexivity; intros H; now elim H|].
  split; [destruct Out; simpl; split; intros H; try discriminate;
          try reflexivity; now elim H|].
  do 4 (split; [reflexivity|]).
  intros g. unfold ReduceGroup. cbn [Policy.MapOut Policy.Identity
    NativeSumOp.Impl.policy]. unfold NativeSumOp.Impl.MapOut. f_equal.
  unfold NativeSumOp.Impl.Identity.
  generalize (zero (NativeSumOp.Impl.Accum Out)).
  induction g as [|e g IH]; intros accum; simpl; auto.
Qed.

Lemma Sum_accumulates_in_widened_type_witness :
  NativeSumOp.Impl.Accum kFloat16 = kFloat32 /\
  NativeSumOp.Impl.Accum kInt32 = kInt32 /\
  NativeSumOp.Impl.Accum kFloat16 <> kFloat16.
Proof.
  split; [|split].
  - exact (proj1 (Sum_accumulates_in_widened_type kInt8 kFloat16) eq_refl).
  - refine (proj1 (proj2 (Sum_accumulates_in_widened_type kInt8 kInt32)) _).
    discriminate.
  - exact (proj2 (proj1 (proj2 (proj2
             (Sum_accumulates_in_widened_type kInt8 kFloat16)))) eq_refl).
Defined.

(** C6.  Every adapter asserts the validity of the output shape before it
    invokes the engine.  Sum and AMax accept the input shape with the
    reduced axes removed and the input shape with the reduced axes set to
    1, and fail the assertion on any other output shape; ArgMax and ArgMin
    (once their non-emptiness assertion has passed) accept only the input
    shape with the reduced axes removed.  Both accepted shapes list the
    remaining axes in the order of the input shape. *)
Theorem adapters_assert_valid_shape :
  forall (T Out : Dtype) (a : Array T) (axis : Axes)
         (out : Array Out) (outT : Array T) (outI : Array kInt64),
    let dropped := dropped_shape axis (shape a) in
    let kept := keepdims_shape axis (shape a) in
    (* the two accepted shapes, position by position of the input shape *)
    dropped = map fst (filter (fun e => negb (is_reduced axis (snd e)))
                              (enumerate (shape a)))
    /\ kept = map (fun e => if is_reduced axis (snd e) then 1 else fst e)
                  (enumerate (shape a))
    (* Sum *)
    /\ (shape out = dropped \/ shape out = kept ->
        NativeSumOp.Call a axis out
        = Ok (mkArray (shape out)
                (Reduce a axis (NativeSumOp.Impl.policy T Out))))
    /\ (shape out <> dropped -> shape out <> kept ->
        NativeSumOp.Call a axis out = AssertionFailed ValidReductionShape)
    (* AMax *)
    /\ (shape outT = dropped \/ shape outT = kept ->
        NativeAMaxOp.Call a axis outT
        = Ok (mkArray (shape outT)
                (Reduce a axis (NativeAMaxOp.Impl.policy T))))
    /\ (shape outT <> dropped -> shape outT <> kept ->
        NativeAMaxOp.Call a axis outT = AssertionFailed ValidReductionShape)
    (* ArgMax and ArgMin *)
    /\ (all_axes_nonempty (shape a) axis = true ->
        (shape outI = dropped ->
         NativeArgMaxOp.Call a axis outI
         = Ok (@mkArray kInt64 (shape outI)
                 (Reduce a axis (NativeArgMaxOp.Impl.policy T))) /\
         NativeArgMinOp.Impl a axis outI
         = Ok (@mkArray kInt64 (shape outI)
                 (Reduce a axis (NativeArgMinOp.Impl.policy T)))) /\
        (shape outI <> dropped ->
         NativeArgMaxOp.Call a axis outI
         = AssertionFailed ValidReductionShape /\
         NativeArgMinOp.Impl a axis outI
         = AssertionFailed ValidReductionShape)).
Proof.
  intros T Out a axis out outT outI dropped kept. subst dropped kept.
  split; [apply select_enumerate|]. split; [apply collapse_enumerate|].
  unfold NativeSumOp.Call, NativeAMaxOp.Call, NativeArgMaxOp.Call,
    NativeArgMinOp.Impl, IsValidReductionShape.
  repeat match goal with |- _ /\ _ => split end.
  - intros [H|H]; apply shape_eqb_eq in H; rewrite H;
      rewrite ?orb_true_r; reflexivity.
  - intros H1 H2. apply shape_eqb_neq in H1, H2. now rewrite H1, H2.
  - intros [H|H]; apply shape_eqb_eq in H; rewrite H;
      rewrite ?orb_true_r; reflexivity.
  - intros H1 H2. apply shape_eqb_neq in H1, H2. now rewrite H1, H2.
  - intros ->.
    split; intros H; [apply shape_eqb_eq in H | apply shape_eqb_neq in H];
      rewrite H; split; reflexivity.
Qed.

Lemma adapters_assert_valid_shape_witness :
  NativeSumOp.Call input_2x3 [1] out_2_i32 = Ok (@mkArray kInt32 [2] [6; 10]) /\
  NativeAMaxOp.Call input_2x3 [1] out_3_i32
  = AssertionFailed ValidReductionShape /\
  NativeArgMaxOp.Call input_2x3 [1] out_2x1
  = AssertionFailed ValidReductionShape.
Proof.
  pose proof (adapters_assert_valid_shape kInt32 kInt32 input_2x3 [1]
                out_2_i32 out_3_i32 out_2x1) as H.
  cbv zeta in H.
  destruct H as (_ & _ & HS & _ & _ & HA & HI).
  split; [|split].
  - exact (HS (or_introl eq_refl)).
  - apply HA; discriminate.
  - refine (proj1 (proj2 (HI eq_refl) _)). discriminate.
Defined.

(** C7.  The input [[1,3,2],[4,0,6]] of shape 2x3 reduced over axis 1, at
    every element type that holds these values: ArgMax yields [1, 2], Sum
    yields [6, 10] in every output type, AMax yields [3, 6]. *)
Theorem scenario_2x3_axis_1 :
  forall T : Dtype,
    T <> kBool ->
    let a := mkArray [2; 3] (ints T [1; 3; 2; 4; 0; 6]) in
    NativeArgMaxOp.Call a [1] (@mkArray kInt64 [2] [0; 0])
    = Ok (@mkArray kInt64 [2] [1; 2])
    /\ (forall Out : Dtype,
          NativeSumOp.Call a [1] (mkArray [2] (ints Out [0; 0]))
          = Ok (mkArray [2] (ints Out [6; 10])))
    /\ NativeAMaxOp.Call a [1] (mkArray [2] (ints T [0; 0]))
       = Ok (mkArray [2] (ints T [3; 6])).
Proof.
  intros T HT a. subst a.
  destruct T; try (now elim HT);
    (split; [reflexivity|split; [intros []; reflexivity|reflexivity]]).
Qed.

Lemma scenario_2x3_axis_1_witness :
  NativeArgMaxOp.Call input_2x3 [1] (@mkArray kInt64 [2] [0; 0])
  = Ok (@mkArray kInt64 [2] [1; 2])
  /\ NativeSumOp.Call input_2x3 [1] (@mkArray kInt64 [2] [0; 0])
     = Ok (@mkArray kInt64 [2] [6; 10])
  /\ NativeAMaxOp.Call input_2x3 [1] (@mkArray kInt32 [2] [0; 0])
     = Ok (@mkArray kInt32 [2] [3; 6]).
Proof.
  assert (H : kInt32 <> kBool) by discriminate.
  destruct (scenario_2x3_axis_1 kInt32 H) as (H1 & H2 & H3).
  split; [exact H1|]. split; [exact (H2 kInt64)|exact H3].
Defined.

(** C8, as stated, fails: ArgMax over the single axis of length 1 of the
    one-element array [7] returns the index 0, not the input. *)
Lemma ArgMax_length_1_axis_is_not_identity :
  well_formed (@mkArray kInt64 [1] [7]) /\
  dim (shape (@mkArray kInt64 [1] [7])) 0 = Some 1 /\
  NativeArgMaxOp.Call (@mkArray kInt64 [1] [7]) [0] (@mkArray kInt64 [] [0])
  = Ok (@mkArray kInt64 [] [0]) /\
  data (@mkArray kInt64 [] [0]) <> data (@mkArray kInt64 [1] [7]).
Proof.
  split; [|split; [|split]]; try reflexivity.
  - split; [repeat constructor; discriminate|reflexivity].
  - discriminate.
Qed.

(** C8, amended.  Reducing over a single axis of length 1: AMax returns the
    elements of the input unchanged, and so does Sum into the element type
    of the input as long as no element is the floating -0 (which it returns
    as +0); ArgMax and ArgMin return the index 0 for every element. *)
Theorem length_1_axis_reduction :
  forall (T : Dtype) (a : Array T) (k : Z)
         (out : Array T) (outI : Array kInt64),
    well_formed a ->
    dim (shape a) k = Some 1 ->
    Forall (fun x => valid T x = true) (data a) ->
    (IsValidReductionShape (shape a) [k] (shape out) true = true ->
     NativeAMaxOp.Call a [k] out = Ok (mkArray (shape out) (data a)) /\
     (Forall (fun x => is_negative_zero T x = false) (data a) ->
      NativeSumOp.Call a [k] out = Ok (mkArray (shape out) (data a))))
    /\ (IsValidReductionShape (shape a) [k] (shape outI) false = true ->
        NativeArgMaxOp.Call a [k] outI
        = Ok (@mkArray kInt64 (shape outI) (map (fun _ => 0) (data a))) /\
        NativeArgMinOp.Impl a [k] outI
        = Ok (@mkArray kInt64 (shape outI) (map (fun _ => 0) (data a)))).
Proof.
  intros T a k out outI Hwf Hk Hv. split; intros Hs.
  - unfold NativeAMaxOp.Call, NativeSumOp.Call. rewrite Hs. cbn [negb].
    rewrite !(Reduce_unit_axis k a _ Hwf Hk). split; [|intros Hz].
    + do 2 f_equal. rewrite <- (map_id (data a)) at 2.
      apply map_ext_in. intros x Hx. apply AMax_of_one.
      rewrite Forall_forall in Hv. auto.
    + do 2 f_equal. rewrite <- (map_id (data a)) at 2.
      apply map_ext_in. intros x Hx. apply sum_of_one_same.
      * rewrite Forall_forall in Hv. auto.
      * rewrite Forall_forall in Hz. auto.
  - unfold NativeArgMaxOp.Call, NativeArgMinOp.Impl.
    assert (Hne : all_axes_nonempty (shape a) [k] = true)
      by (unfold all_axes_nonempty; cbn [forallb]; now rewrite Hk).
    rewrite Hne, Hs. cbn [negb].
    rewrite !(Reduce_unit_axis k a _ Hwf Hk). split; reflexivity.
Qed.

Lemma length_1_axis_reduction_witness :
  well_formed input_2x1x2 /\
  dim (shape input_2x1x2) 1 = Some 1 /\
  NativeAMaxOp.Call input_2x1x2 [1]
    (mkArray [2; 2] (ints kFloat32 [0; 0; 0; 0]))
  = Ok (mkArray [2; 2] (data input_2x1x2)) /\
  NativeSumOp.Call input_2x1x2 [1]
    (mkArray [2; 1; 2] (ints kFloat32 [0; 0; 0; 0]))
  = Ok (mkArray [2; 1; 2] (data input_2x1x2)) /\
  NativeArgMinOp.Impl input_2x1x2 [1] (@mkArray kInt64 [2; 2] [0; 0; 0; 0])
  = Ok (@mkArray kInt64 [2; 2] [0; 0; 0; 0]).
Proof.
  assert (Hwf : well_formed input_2x1x2)
    by (split; [repeat constructor; discriminate|reflexivity]).
  assert (Hv : Forall (fun x => valid kFloat32 x = true) (data input_2x1x2))
    by (repeat constructor).
  assert (Hz : Forall (fun x => is_negative_zero kFloat32 x = false)
                 (data input_2x1x2))
    by (repeat constructor).
  split; [exact Hwf|]. split; [reflexivity|].
  split; [|split].
  - exact (proj1 (proj1 (length_1_axis_reduction kFloat32 input_2x1x2 1
                           (mkArray [2; 2] (ints kFloat32 [0; 0; 0; 0]))
                           (@mkArray kInt64 [2; 2] [0; 0; 0; 0])
                           Hwf eq_refl Hv) eq_refl)).
  - exact (proj2 (proj1 (length_1_axis_reduction kFloat32 input_2x1x2 1
                           (mkArray [2; 1; 2] (ints kFloat32 [0; 0; 0; 0]))
                           (@mkArray kInt64 [2; 2] [0; 0; 0; 0])
                           Hwf eq_refl Hv) eq_refl) Hz).
  - exact (proj2 (proj2 (length_1_axis_reduction kFloat32 input_2x1x2 1
                           (mkArray [2; 2] (ints kFloat32 [0; 0; 0; 0]))
                           (@mkArray kInt64 [2; 2] [0; 0; 0; 0])
                           Hwf eq_refl Hv) eq_refl)).
Defined.

(** C9.  The combine step of ArgMax and NaN: once the accumulator holds an
    element (its index is not negative), a NaN never replaces it, and if it
    holds a NaN nothing replaces it.  Hence a group that starts with a NaN
    returns the index of that first element, and a group that starts with a
    number returns what it would return with its NaN elements removed. *)
Theorem ArgMax_NaN_invariant :
  forall T : Dtype,
    let impl := NativeArgMaxOp.Impl.policy T in
    (forall next accum : NativeArgMaxOp.Impl.MaxAndArgMax T,
        0 <= NativeArgMaxOp.Impl.argmax accum ->
        IsNan T (NativeArgMaxOp.Impl.max next) = true ->
        Policy.Reduce impl next accum = accum)
    /\ (forall next accum : NativeArgMaxOp.Impl.MaxAndArgMax T,
        0 <= NativeArgMaxOp.Impl.argmax accum ->
        IsNan T (NativeArgMaxOp.Impl.max accum) = true ->
        Policy.Reduce impl next accum = accum)
    /\ (forall (x : El T) (i : Z) (g : list (El T * Z)),
        0 <= i -> IsNan T x = true ->
        ReduceGroup impl ((x, i) :: g) = i)
    /\ (forall (x : El T) (i : Z) (g : list (El T * Z)),
        0 <= i -> Forall (fun e => 0 <= snd e) g ->
        IsNan T x = false ->
        ReduceGroup impl ((x, i) :: g)
        = ReduceGroup impl (filter (not_nan T) ((x, i) :: g))).
Proof.
  intros T impl. subst impl. split; [|split; [|split]].
  - intros next accum Hi Hn. apply ArgMax_keeps_on_nan; auto.
  - intros next accum Hi Hn. apply ArgMax_keeps_on_nan; auto.
  - intros x i g. apply ArgMax_nan_first.
  - intros x i g Hi Hg Hx. cbn [filter]. unfold not_nan at 1. cbn [fst].
    rewrite Hx. cbn [negb]. unfold ReduceGroup. cbn [fold_left]. f_equal.
    apply ArgMax_skips_nan; [|exact Hg].
    rewrite ArgMax_step. exact Hi.
Qed.

Lemma ArgMax_NaN_invariant_witness :
  ReduceGroup (NativeArgMaxOp.Impl.policy kFloat64)
    (enumerate [f64_nan; f64_one; f64_two]) = 0 /\
  ReduceGroup (NativeArgMaxOp.Impl.policy kFloat64)
    (enumerate [f64_one; f64_nan; f64_two])
  = ReduceGroup (NativeArgMaxOp.Impl.policy kFloat64)
      [(f64_one, 0); (f64_two, 2)] /\
  NativeArgMaxOp.Impl.Reduce kFloat64
    (NativeArgMaxOp.Impl.mk f64_nan 1) (NativeArgMaxOp.Impl.mk f64_one 0)
  = NativeArgMaxOp.Impl.mk f64_one 0.
Proof.
  split; [|split].
  - refine (proj1 (proj2 (proj2 (ArgMax_NaN_invariant kFloat64)))
              f64_nan 0 _ _ eq_refl).
    discriminate.
  - refine (proj2 (proj2 (proj2 (ArgMax_NaN_invariant kFloat64)))
              f64_one 0 [(f64_nan, 1); (f64_two, 2)] _ _ eq_refl).
    + discriminate.
    + repeat constructor; discriminate.
  - refine (proj1 (ArgMax_NaN_invariant kFloat64)
              (NativeArgMaxOp.Impl.mk f64_nan 1)
              (NativeArgMaxOp.Impl.mk f64_one 0) _ eq_refl).
    discriminate.
Defined.

(** C10.  Sum and AMax do not look at positions: their [MapIn] discards the
    index, so two runs whose groups hold the same values in the same
    visiting order, at whatever indices, produce the same outputs. *)
Theorem Sum_AMax_ignore_positions :
  forall (In Out : Dtype) (gs1 gs2 : list (list (El In * Z))),
    map (map fst) gs1 = map (map fst) gs2 ->
    (forall x i j, NativeSumOp.Impl.MapIn In Out x i
                   = NativeSumOp.Impl.MapIn In Out x j)
    /\ (forall x i j, NativeAMaxOp.Impl.MapIn In x i
                      = NativeAMaxOp.Impl.MapIn In x j)
    /\ ReduceGroups (NativeSumOp.Impl.policy In Out) gs1
       = ReduceGroups (NativeSumOp.Impl.policy In Out) gs2
    /\ ReduceGroups (NativeAMaxOp.Impl.policy In) gs1
       = ReduceGroups (NativeAMaxOp.Impl.policy In) gs2.
Proof.
  intros In Out gs1 gs2 H.
  split; [reflexivity|]. split; [reflexivity|].
  split; apply ReduceGroups_index_blind; auto.
Qed.

Lemma Sum_AMax_ignore_positions_witness :
  map (map fst) groups_by_position = map (map fst) groups_by_offset /\
  ReduceGroups (NativeSumOp.Impl.policy kInt32 kInt64) groups_by_position
  = ReduceGroups (NativeSumOp.Impl.policy kInt32 kInt64) groups_by_offset /\
  ReduceGroups (NativeAMaxOp.Impl.policy kInt32) groups_by_position
  = ReduceGroups (NativeAMaxOp.Impl.policy kInt32) groups_by_offset /\
  ReduceGroups (NativeArgMaxOp.Impl.policy kInt32) groups_by_position
  <> ReduceGroups (NativeArgMaxOp.Impl.policy kInt32) groups_by_offset.
Proof.
  split; [reflexivity|].
  split; [|split].
  - exact (proj1 (proj2 (proj2
             (Sum_AMax_ignore_positions kInt32 kInt64
                groups_by_position groups_by_offset eq_refl)))).
  - exact (proj2 (proj2 (proj2
             (Sum_AMax_ignore_positions kInt32 kInt64
                groups_by_position groups_by_offset eq_refl)))).
  - discriminate.
Defined.

(** * Further properties of the policies and adapters *)

(** ** NaN in ArgMin *)

Section ArgMinNaN.
Variable T : Dtype.
Import NativeArgMinOp.

Lemma ArgMin_keeps_on_nan (next accum : Impl.MinAndArgMin T) :
  0 <= Impl.argmin accum ->
  IsNan T (Impl.min next) = true \/ IsNan T (Impl.min accum) = true ->
  Impl.Reduce T next accum = accum.
Proof.
  intros Hi Hnan. unfold Impl.Reduce, gt.
  replace (Impl.argmin accum <? 0) with false
    by (symmetry; apply Z.ltb_ge; lia).
  destruct Hnan as [H|H];
    [rewrite (lt_nan_l T _ _ H) | rewrite (lt_nan_r T _ _ H)]; reflexivity.
Qed.

Lemma ArgMin_nan_first x i g :
  0 <= i -> IsNan T x = true ->
  ReduceGroup (Impl.policy T) ((x, i) :: g) = i.
Proof.
  intros Hi Hx.
  apply (ArgMin_group T [] x i g);
    [intros e [] | intros e _; now apply lt_nan_r | exact Hi].
Qed.

Lemma ArgMin_skips_nan g (accum : Impl.MinAndArgMin T) :
  0 <= Impl.argmin accum ->
  Forall (fun e => 0 <= snd e) g ->
  fold_left (step (Impl.policy T)) g accum =
  fold_left (step (Impl.policy T)) (filter (not_nan T) g) accum.
Proof.
  intros Hi Hg. revert accum Hi.
  induction Hg as [|e g He Hg IH]; cbn [fold_left filter]; intros accum Hi;
    auto.
  unfold not_nan at 1. destruct (IsNan T (fst e)) eqn:E; cbn [negb].
  - change (step (Impl.policy T) accum e)
      with (Impl.Reduce T (Impl.MapIn T (fst e) (snd e)) accum).
    rewrite ArgMin_keeps_on_nan; auto.
  - cbn [fold_left]. apply IH. rewrite ArgMin_step.
    destruct (_ || _); auto.
Qed.
End ArgMinNaN.

(** ** Where the positional folds end *)

Section Lists2.
Context {A : Type}.

Lemma enumerate_from_nth i (l : list A) e :
  In e (enumerate_from i l) ->
  i <= snd e < i + Z.of_nat (length l) /\
  nth_error l (Z.to_nat (snd e - i)) = Some (fst e).
Proof.
  revert i. induction l as [|x l IH]; cbn [enumerate_from length];
    intros i; [intros []|].
  intros [<-|H]; cbn [fst snd].
  - rewrite Z.sub_diag. split; [lia|reflexivity].
  - destruct (IH _ H) as [Hr Hn]. split; [lia|].
    replace (Z.to_nat (snd e - i)) with (S (Z.to_nat (snd e - (i + 1))))
      by lia.
    exact Hn.
Qed.
End Lists2.

Section ArgMaxEnd.
Variable T : Dtype.
Import NativeArgMaxOp.

(** The fold ends on the accumulator it started from or on an element of
    the group, with its position. *)
Lemma ArgMax_fold_In g (a : Impl.MaxAndArgMax T) :
  let r := fold_left (step (Impl.policy T)) g a in
  r = a \/ In (Impl.max r, Impl.argmax r) g.
Proof.
  revert a. induction g as [|e g IH]; cbn [fold_left]; intros a; auto.
  destruct (IH (step (Impl.policy T) a e)) as [H|H]; [|right; now right].
  cbv zeta. rewrite H, ArgMax_step.
  destruct (_ || _); [right; left; now destruct e|now left].
Qed.

Lemma ArgMax_nonempty_In e g :
  let r := fold_left (step (Impl.policy T)) (e :: g) (Impl.Identity T) in
  In (Impl.max r, Impl.argmax r) (e :: g).
Proof.
  cbn [fold_left]. rewrite ArgMax_step.
  change ((Impl.argmax (Impl.Identity T) <? 0) || _) with true. cbv iota.
  destruct (ArgMax_fold_In g (Impl.mk (fst e) (snd e))) as [H|H];
    cbv zeta in *; [rewrite H; left; now destruct e|now right].
Qed.
End ArgMaxEnd.

Section ArgMinEnd.
Variable T : Dtype.
Import NativeArgMinOp.

Lemma ArgMin_fold_In g (a : Impl.MinAndArgMin T) :
  let r := fold_left (step (Impl.policy T)) g a in
  r = a \/ In (Impl.min r, Impl.argmin r) g.
Proof.
  revert a. induction g as [|e g IH]; cbn [fold_left]; intros a; auto.
  destruct (IH (step (Impl.policy T) a e)) as [H|H]; [|right; now right].
  cbv zeta. rewrite H, ArgMin_step.
  destruct (_ || _); [right; left; now destruct e|now left].
Qed.

Lemma ArgMin_nonempty_In e g :
  let r := fold_left (step (Impl.policy T)) (e :: g) (Impl.Identity T) in
  In (Impl.min r, Impl.argmin r) (e :: g).
Proof.
  cbn [fold_left]. rewrite ArgMin_step.
  change ((Impl.argmin (Impl.Identity T) <? 0) || _) with true. cbv iota.
  destruct (ArgMin_fold_In g (Impl.mk (fst e) (snd e))) as [H|H];
    cbv zeta in *; [rewrite H; left; now destruct e|now right].
Qed.
End ArgMinEnd.

(** ** The size of a group *)

Lemma range_In_inv n i : In i (range n) -> 0 <= i < n.
Proof.
  unfold range. rewrite in_map_iff. intros (k & <- & Hk).
  apply in_seq in Hk. lia.
Qed.

Lemma range_length n : length (range n) = Z.to_nat n.
Proof. unfold range. now rewrite length_map, length_seq. Qed.

Lemma indices_in_bounds s c : In c (indices s) -> in_bounds c s.
Proof.
  revert c. induction s as [|n s IH]; cbn [indices]; intros c.
  - intros [<-|[]]. constructor.
  - rewrite in_flat_map. intros (i & Hi & Hc).
    apply in_map_iff in Hc. destruct Hc as (c' & <- & Hc').
    constructor; [now apply range_In_inv|now apply IH].
Qed.

Lemma indices_length_total s :
  Forall (fun n => 0 <= n) s -> length (indices s) = Z.to_nat (TotalSize s).
Proof.
  intros H. rewrite <- range_length, <- (offset_indices s H).
  now rewrite length_map.
Qed.

Lemma merge_in_bounds axis s k c_out c_red :
  in_bounds c_out (select (fun i => negb (is_reduced axis i)) k s) ->
  in_bounds c_red (select (is_reduced axis) k s) ->
  in_bounds (merge axis k s c_out c_red) s.
Proof.
  revert k c_out c_red. induction s as [|n s IH]; intros k c_out c_red;
    cbn [select merge]; [constructor|].
  destruct (is_reduced axis k); cbn [negb]; intros Ho Hr.
  - inversion Hr; subst. constructor; [assumption|]. now apply IH.
  - inversion Ho; subst. constructor; [assumption|]. now apply IH.
Qed.

Lemma offset_from_bound c s :
  in_bounds c s ->
  forall acc,
    acc * TotalSize s <= offset_from acc s c < (acc + 1) * TotalSize s.
Proof.
  induction 1 as [|i n c s Hi Hcs IH]; intros acc;
    cbn [offset_from TotalSize fold_right]; [lia|].
  fold (TotalSize s). specialize (IH (acc * n + i)). nia.
Qed.

Lemma at_offset_length {A : Type} (l : list A) i :
  0 <= i < Z.of_nat (length l) -> length (at_offset l i) = 1%nat.
Proof.
  intros H. unfold at_offset.
  destruct (nth_error l (Z.to_nat i)) eqn:E; [reflexivity|].
  apply nth_error_None in E. lia.
Qed.

Lemma flat_map_singletons {A B : Type} (f : A -> list B) l :
  (forall x, In x l -> length (f x) = 1%nat) ->
  length (flat_map f l) = length l.
Proof.
  induction l as [|x l IH]; cbn [flat_map length]; intros H; auto.
  rewrite length_app, (H x (or_introl eq_refl)), IH; [reflexivity|].
  intros y Hy. apply H. now right.
Qed.

Lemma select_Forall (P : Z -> Prop) keep k s :
  Forall P s -> Forall P (select keep k s).
Proof.
  intros H. revert k. induction H as [|n s Hn Hs IH]; intros k;
    cbn [select]; [constructor|].
  destruct (keep k); [constructor|]; auto.
Qed.

Lemma select_In keep k s d :
  In d (select keep k s) ->
  exists n, nth_error s n = Some d /\ keep (k + Z.of_nat n) = true.
Proof.
  revert k. induction s as [|m s IH]; cbn [select]; intros k; [intros []|].
  destruct (keep k) eqn:E.
  - intros [<-|H].
    + exists 0%nat. split; [reflexivity|]. now rewrite Z.add_0_r.
    + destruct (IH _ H) as (n & Hn & Hk). exists (S n).
      split; [exact Hn|]. now replace (k + Z.of_nat (S n))
                             with (k + 1 + Z.of_nat n) by lia.
  - intros H. destruct (IH _ H) as (n & Hn & Hk). exists (S n).
    split; [exact Hn|]. now replace (k + Z.of_nat (S n))
                           with (k + 1 + Z.of_nat n) by lia.
Qed.

Lemma TotalSize_pos s : Forall (fun n => 0 < n) s -> 0 < TotalSize s.
Proof.
  induction 1 as [|n s Hn Hs IH]; cbn [TotalSize fold_right]; [lia|].
  fold (TotalSize s). nia.
Qed.

(** The reduced axes that pass the assertion of ArgMax and ArgMin have a
    positive number of coordinates. *)
Lemma reduced_shape_pos s axis :
  all_axes_nonempty s axis = true -> 0 < TotalSize (reduced_shape axis s).
Proof.
  intros H. apply TotalSize_pos, Forall_forall. intros d Hd.
  apply select_In in Hd. destruct Hd as (n & Hn & Hk).
  unfold is_reduced in Hk. apply existsb_exists in Hk.
  destruct Hk as (i & Hi & Hk). apply Z.eqb_eq in Hk.
  unfold all_axes_nonempty in H. rewrite forallb_forall in H.
  specialize (H i Hi). unfold dim in H.
  replace i with (Z.of_nat n) in H by lia.
  destruct (Z.ltb_spec (Z.of_nat n) 0); [lia|].
  rewrite Nat2Z.id, Hn in H. now apply Z.ltb_lt.
Qed.

(** In a well-formed array every group holds one element per coordinate of
    the reduced axes. *)
Lemma groups_length {T : Dtype} (a : Array T) axis k g :
  well_formed a -> nth_error (groups a axis) k = Some g ->
  Z.of_nat (length g) = TotalSize (reduced_shape axis (shape a)).
Proof.
  intros [Hs Hlen] Hk. apply nth_error_In in Hk. unfold groups in Hk.
  apply in_map_iff in Hk. destruct Hk as (c_out & <- & Hc).
  unfold group. rewrite flat_map_singletons.
  - rewrite indices_length_total by now apply select_Forall.
    apply Z2Nat.id, TotalSize_nonneg. now apply select_Forall.
  - intros c_red Hr. apply at_offset_length. rewrite Hlen.
    pose proof (offset_from_bound _ _
                  (merge_in_bounds axis (shape a) 0 c_out c_red
                     (indices_in_bounds _ _ Hc) (indices_in_bounds _ _ Hr))
                  0) as H.
    unfold offset. lia.
Qed.

(** ** ArgMax and ArgMin without NaN *)

Lemma has_nan_In T g x : has_nan T g = false -> In x g -> IsNan T x = false.
Proof.
  intros Hn Hx. destruct (IsNan T x) eqn:E; auto.
  unfold has_nan in Hn. rewrite <- Hn. symmetry.
  apply existsb_exists. eauto.
Qed.

Section ArgMaxTotal.
Variable T : Dtype.
Import NativeArgMaxOp.

(** From an accumulator holding a number, over numbers: the fold ends on a
    number that neither the start nor any element exceeds. *)
Lemma ArgMax_fold_bound g (a : Impl.MaxAndArgMax T) :
  0 <= Impl.argmax a -> IsNan T (Impl.max a) = false ->
  has_nan T (map fst g) = false ->
  Forall (fun e => 0 <= snd e) g ->
  let r := fold_left (step (Impl.policy T)) g a in
  0 <= Impl.argmax r /\ IsNan T (Impl.max r) = false /\
  lt T (Impl.max r) (Impl.max a) = false /\
  forall x, In x (map fst g) -> lt T (Impl.max r) x = false.
Proof.
  intros Hi Ha Hn Hg. revert a Hi Ha Hn.
  induction Hg as [|e g He Hg IH]; cbn [fold_left map]; intros a Hi Ha Hn.
  - cbv zeta. split; [exact Hi|]. split; [exact Ha|].
    split; [apply lt_irrefl|intros x []].
  - unfold has_nan in Hn. cbn [existsb] in Hn.
    apply orb_false_iff in Hn. destruct Hn as [Hne Hn].
    rewrite ArgMax_step.
    replace (Impl.argmax a <? 0) with false
      by (symmetry; apply Z.ltb_ge; lia).
    cbn [orb]. destruct (lt T (Impl.max a) (fst e)) eqn:E.
    + destruct (IH (Impl.mk (fst e) (snd e)) He Hne Hn)
        as (Hri & Hrn & Hre & Hrg).
      cbv zeta. cbn [Impl.max] in Hre.
      split; [exact Hri|]. split; [exact Hrn|]. split.
      * match goal with |- ?X = false => destruct X eqn:C end; auto.
        rewrite (lt_trans T _ _ _ C E) in Hre. discriminate.
      * intros x [<-|Hx]; auto.
    + destruct (IH a Hi Ha Hn) as (Hri & Hrn & Hra & Hrg).
      cbv zeta. split; [exact Hri|]. split; [exact Hrn|].
      split; [exact Hra|].
      intros x [<-|Hx]; auto.
      match goal with |- ?X = false => destruct X eqn:C end; auto.
      destruct (lt_cotrans T _ _ (Impl.max a) C Ha); congruence.
Qed.

(** ArgMax and AMax move together over numbers. *)
Lemma ArgMax_AMax_lockstep g (a : Impl.MaxAndArgMax T) :
  0 <= Impl.argmax a ->
  has_nan T (map fst g) = false ->
  Forall (fun e => 0 <= snd e) g ->
  Impl.max (fold_left (step (Impl.policy T)) g a)
  = fold_left (step (NativeAMaxOp.Impl.policy T)) g (Impl.max a).
Proof.
  intros Hi Hn Hg. revert a Hi Hn.
  induction Hg as [|e g He Hg IH]; cbn [fold_left map]; intros a Hi Hn;
    auto.
  unfold has_nan in Hn. cbn [existsb] in Hn.
  apply orb_false_iff in Hn. destruct Hn as [Hne Hn].
  rewrite ArgMax_step, AMax_step, Hne.
  replace (Impl.argmax a <? 0) with false
    by (symmetry; apply Z.ltb_ge; lia).
  cbn [orb]. destruct (lt T (Impl.max a) (fst e)).
  - now rewrite (IH (Impl.mk (fst e) (snd e)) He Hn).
  - now rewrite (IH a Hi Hn).
Qed.

Lemma ArgMax_group_position g :
  g <> [] ->
  let r := fold_left (step (Impl.policy T)) (enumerate g) (Impl.Identity T) in
  0 <= Impl.argmax r < Z.of_nat (length g) /\
  nth_error g (Z.to_nat (Impl.argmax r)) = Some (Impl.max r).
Proof.
  intros Hne. destruct g as [|x g]; [now elim Hne|].
  pose proof (ArgMax_nonempty_In T (x, 0) (enumerate_from (0 + 1) g)) as H.
  change ((x, 0) :: enumerate_from (0 + 1) g) with (enumerate (x :: g)) in H.
  cbv zeta in *. apply enumerate_from_nth in H. cbn [fst snd] in H.
  now rewrite Z.sub_0_r in H.
Qed.

Lemma ArgMax_group_is_maximum g :
  g <> [] -> has_nan T g = false ->
  let r := fold_left (step (Impl.policy T)) (enumerate g) (Impl.Identity T) in
  is_maximum T g (Impl.max r) = true.
Proof.
  intros Hne Hn. destruct g as [|x g]; [now elim Hne|].
  unfold enumerate. cbn [enumerate_from fold_left]. rewrite ArgMax_step.
  change ((Impl.argmax (Impl.Identity T) <? 0) || _) with true. cbv iota.
  cbn [fst snd].
  assert (Hx : IsNan T x = false) by (apply (has_nan_In T (x :: g)); auto;
                                      now left).
  assert (Hg : has_nan T g = false)
    by (unfold has_nan in *; cbn [existsb] in Hn;
        now apply orb_false_iff in Hn).
  destruct (ArgMax_fold_bound (enumerate_from (0 + 1) g) (Impl.mk x 0))
    as (_ & Hrn & Hrx & Hrg); cbn [Impl.max Impl.argmax]; auto; try lia.
  - now rewrite enumerate_from_fst.
  - apply Forall_forall. intros e He.
    apply enumerate_from_nth in He. lia.
  - cbv zeta in *. rewrite enumerate_from_fst in Hrg.
    cbn [Impl.max] in Hrx.
    apply forallb_forall. intros y [<-|Hy]; unfold le.
    + now rewrite Hx, Hrn, Hrx.
    + now rewrite (has_nan_In T g y Hg Hy), Hrn, (Hrg y Hy).
Qed.

Lemma AMax_is_ArgMax_element g :
  g <> [] -> has_nan T g = false ->
  Forall (fun x => valid T x = true) g ->
  nth_error g (Z.to_nat (ReduceGroup (Impl.policy T) (enumerate g)))
  = Some (ReduceGroup (NativeAMaxOp.Impl.policy T) (enumerate g)).
Proof.
  intros Hne Hn Hv.
  destruct (ArgMax_group_position g Hne) as [_ Hp]. cbv zeta in Hp.
  unfold ReduceGroup at 1.
  change (Policy.MapOut (Impl.policy T)) with (@Impl.argmax T).
  change (Policy.Identity (Impl.policy T)) with (Impl.Identity T).
  rewrite Hp. f_equal.
  destruct g as [|x g]; [now elim Hne|].
  unfold ReduceGroup, enumerate. cbn [enumerate_from fold_left].
  rewrite ArgMax_step, AMax_step.
  change ((Impl.argmax (Impl.Identity T) <? 0) || _) with true. cbv iota.
  cbn [fst snd Policy.MapOut Policy.Identity NativeAMaxOp.Impl.policy].
  unfold NativeAMaxOp.Impl.MapOut, NativeAMaxOp.Impl.Identity.
  assert (Hx : IsNan T x = false) by (apply (has_nan_In T (x :: g)); auto;
                                      now left).
  assert (Hg : has_nan T g = false)
    by (unfold has_nan in *; cbn [existsb] in Hn;
        now apply orb_false_iff in Hn).
  rewrite ArgMax_AMax_lockstep; cbn [Impl.max Impl.argmax]; try lia.
  - rewrite Hx. cbn [orb].
    destruct (lt T (LowestOrInf T) x) eqn:E; [reflexivity|].
    f_equal. apply lt_lowest; auto. now inversion Hv.
  - now rewrite enumerate_from_fst.
  - apply Forall_forall. intros e He.
    apply enumerate_from_nth in He. lia.
Qed.
End ArgMaxTotal.

Section ArgMinTotal.
Variable T : Dtype.
Import NativeArgMinOp.

Lemma ArgMin_fold_bound g (a : Impl.MinAndArgMin T) :
  0 <= Impl.argmin a -> IsNan T (Impl.min a) = false ->
  has_nan T (map fst g) = false ->
  Forall (fun e => 0 <= snd e) g ->
  let r := fold_left (step (Impl.policy T)) g a in
  0 <= Impl.argmin r /\ IsNan T (Impl.min r) = false /\
  lt T (Impl.min a) (Impl.min r) = false /\
  forall x, In x (map fst g) -> lt T x (Impl.min r) = false.
Proof.
  intros Hi Ha Hn Hg. revert a Hi Ha Hn.
  induction Hg as [|e g He Hg IH]; cbn [fold_left map]; intros a Hi Ha Hn.
  - cbv zeta. split; [exact Hi|]. split; [exact Ha|].
    split; [apply lt_irrefl|intros x []].
  - unfold has_nan in Hn. cbn [existsb] in Hn.
    apply orb_false_iff in Hn. destruct Hn as [Hne Hn].
    rewrite ArgMin_step. unfold gt.
    replace (Impl.argmin a <? 0) with false
      by (symmetry; apply Z.ltb_ge; lia).
    cbn [orb]. destruct (lt T (fst e) (Impl.min a)) eqn:E.
    + destruct (IH (Impl.mk (fst e) (snd e)) He Hne Hn)
        as (Hri & Hrn & Hre & Hrg).
      cbv zeta. cbn [Impl.min] in Hre.
      split; [exact Hri|]. split; [exact Hrn|]. split.
      * match goal with |- ?X = false => destruct X eqn:C end; auto.
        rewrite (lt_trans T _ _ _ E C) in Hre. discriminate.
      * intros x [<-|Hx]; auto.
    + destruct (IH a Hi Ha Hn) as (Hri & Hrn & Hra & Hrg).
      cbv zeta. split; [exact Hri|]. split; [exact Hrn|].
      split; [exact Hra|].
      intros x [<-|Hx]; auto.
      match goal with |- ?X = false => destruct X eqn:C end; auto.
      destruct (lt_cotrans T _ _ (Impl.min a) C Ha); congruence.
Qed.

Lemma ArgMin_group_position g :
  g <> [] ->
  let r := fold_left (step (Impl.policy T)) (enumerate g) (Impl.Identity T) in
  0 <= Impl.argmin r < Z.of_nat (length g) /\
  nth_error g (Z.to_nat (Impl.argmin r)) = Some (Impl.min r).
Proof.
  intros Hne. destruct g as [|x g]; [now elim Hne|].
  pose proof (ArgMin_nonempty_In T (x, 0) (enumerate_from (0 + 1) g)) as H.
  change ((x, 0) :: enumerate_from (0 + 1) g) with (enumerate (x :: g)) in H.
  cbv zeta in *. apply enumerate_from_nth in H. cbn [fst snd] in H.
  now rewrite Z.sub_0_r in H.
Qed.

Lemma ArgMin_group_is_minimum g :
  g <> [] -> has_nan T g = false ->
  let r := fold_left (step (Impl.policy T)) (enumerate g) (Impl.Identity T) in
  is_minimum T g (Impl.min r) = true.
Proof.
  intros Hne Hn. destruct g as [|x g]; [now elim Hne|].
  unfold enumerate. cbn [enumerate_from fold_left]. rewrite ArgMin_step.
  change ((Impl.argmin (Impl.Identity T) <? 0) || _) with true. cbv iota.
  cbn [fst snd].
  assert (Hx : IsNan T x = false) by (apply (has_nan_In T (x :: g)); auto;
                                      now left).
  assert (Hg : has_nan T g = false)
    by (unfold has_nan in *; cbn [existsb] in Hn;
        now apply orb_false_iff in Hn).
  destruct (ArgMin_fold_bound (enumerate_from (0 + 1) g) (Impl.mk x 0))
    as (_ & Hrn & Hrx & Hrg); cbn [Impl.min Impl.argmin]; auto; try lia.
  - now rewrite enumerate_from_fst.
  - apply Forall_forall. intros e He.
    apply enumerate_from_nth in He. lia.
  - cbv zeta in *. rewrite enumerate_from_fst in Hrg.
    cbn [Impl.min] in Hrx.
    apply forallb_forall. intros y [<-|Hy]; unfold le.
    + now rewrite Hx, Hrn, Hrx.
    + now rewrite (has_nan_In T g y Hg Hy), Hrn, (Hrg y Hy).
Qed.
End ArgMinTotal.

(** ** AMax as a monoid *)

Section AMaxMonoid.
Variable T : Dtype.
Import NativeAMaxOp.

Lemma valid_lowest : valid T (LowestOrInf T) = true.
Proof. destruct T; reflexivity. Qed.

Lemma lowest_not_nan : IsNan T (LowestOrInf T) = false.
Proof. destruct T; reflexivity. Qed.

Lemma lt_lowest_r (a : El T) :
  valid T a = true -> lt T a (LowestOrInf T) = false.
Proof.
  destruct T; cbn [valid lt LowestOrInf];
    try (rewrite andb_true_iff, Z.leb_le, Z.ltb_ge; intros [H _]; exact H);
    intros _; destruct a as [[]|[]| |[] m e]; reflexivity.
Qed.

Lemma AMax_Reduce_assoc (a b x : El T) :
  Impl.Reduce T x (Impl.Reduce T b a)
  = Impl.Reduce T (Impl.Reduce T x b) a.
Proof.
  unfold Impl.Reduce.
  destruct (IsNan T x) eqn:Nx; cbn [orb].
  - rewrite Nx. reflexivity.
  - destruct (IsNan T b) eqn:Nb; cbn [orb].
    + rewrite (lt_nan_l T b x Nb), Nb. reflexivity.
    + destruct (lt T b x) eqn:Ebx; rewrite ?Nx, ?Nb; cbn [orb];
        destruct (lt T a b) eqn:Eab; rewrite ?Ebx; try reflexivity.
      * now rewrite (lt_trans T a b x Eab Ebx).
      * destruct (lt T a x) eqn:Eax; [|reflexivity].
        destruct (lt_cotrans T a x b Eax Nb); congruence.
Qed.

Lemma AMax_Reduce_identity (a : El T) :
  valid T a = true ->
  Impl.Reduce T a (Impl.Identity T) = a /\
  Impl.Reduce T (Impl.Identity T) a = a.
Proof.
  intros Hv. unfold Impl.Reduce, Impl.Identity. split.
  - destruct (IsNan T a) eqn:N; [reflexivity|]. cbn [orb].
    destruct (lt T (LowestOrInf T) a) eqn:E; [reflexivity|].
    symmetry. now apply lt_lowest.
  - now rewrite lowest_not_nan, (lt_lowest_r a Hv).
Qed.

Lemma AMax_Reduce_valid (x a : El T) :
  valid T x = true -> valid T a = true ->
  valid T (Impl.Reduce T x a) = true.
Proof. intros Hx Ha. unfold Impl.Reduce. now destruct (_ || _). Qed.

Lemma AMax_fold_valid g (a : El T) :
  valid T a = true -> Forall (fun e => valid T (fst e) = true) g ->
  valid T (fold_left (step (Impl.policy T)) g a) = true.
Proof.
  intros Ha Hg. revert a Ha.
  induction Hg as [|e g He Hg IH]; cbn [fold_left]; intros a Ha; auto.
  apply IH. now apply AMax_Reduce_valid.
Qed.

(** Folding from any valid accumulator is combining it with the fold from
    the identity. *)
Lemma AMax_fold_from g (a : El T) :
  valid T a = true -> Forall (fun e => valid T (fst e) = true) g ->
  fold_left (step (Impl.policy T)) g a
  = Impl.Reduce T (fold_left (step (Impl.policy T)) g (Impl.Identity T)) a.
Proof.
  intros Ha Hg. revert a Ha.
  induction Hg as [|e g He Hg IH]; cbn [fold_left]; intros a Ha.
  - symmetry. now apply AMax_Reduce_identity.
  - change (step (Impl.policy T) a e) with (Impl.Reduce T (fst e) a).
    change (step (Impl.policy T) (Impl.Identity T) e)
      with (Impl.Reduce T (fst e) (Impl.Identity T)).
    rewrite (proj1 (AMax_Reduce_identity (fst e) He)).
    rewrite (IH (Impl.Reduce T (fst e) a)) by now apply AMax_Reduce_valid.
    rewrite (IH (fst e) He). apply AMax_Reduce_assoc.
Qed.

Lemma AMax_group_app g1 g2 :
  Forall (fun e => valid T (fst e) = true) (g1 ++ g2) ->
  ReduceGroup (Impl.policy T) (g1 ++ g2)
  = Impl.Reduce T (ReduceGroup (Impl.policy T) g2)
                  (ReduceGroup (Impl.policy T) g1).
Proof.
  intros H. apply Forall_app in H. destruct H as [H1 H2].
  unfold ReduceGroup.
  change (Policy.MapOut (Impl.policy T)) with (fun x : El T => x).
  cbv beta. rewrite fold_left_app. apply AMax_fold_from; [|exact H2].
  apply AMax_fold_valid; [apply valid_lowest|exact H1].
Qed.
End AMaxMonoid.

(** ** Sum into an integral type *)

Lemma Zsum_app l1 l2 : Zsum (l1 ++ l2) = Zsum l1 + Zsum l2.
Proof.
  unfold Zsum. induction l1 as [|x l1 IH]; cbn [app fold_right] in *; lia.
Qed.

Lemma Zsum_Permutation l1 l2 : Permutation l1 l2 -> Zsum l1 = Zsum l2.
Proof. unfold Zsum. induction 1; cbn [fold_right] in *; lia. Qed.

Lemma existsb_Permutation {A : Type} (f : A -> bool) l1 l2 :
  Permutation l1 l2 -> existsb f l1 = existsb f l2.
Proof.
  induction 1; cbn [existsb]; try congruence.
  - now rewrite !orb_assoc, (orb_comm (f y)).
Qed.

Section Wrap.
Variable d : Dtype.
Hypothesis Hint : is_float d = false.
Hypothesis Hbool : d <> kBool.

Lemma wrap_mod z :
  wrap d z = (z - int_min d) mod (int_max d - int_min d + 1) + int_min d.
Proof. destruct d; try reflexivity. now elim Hbool. Qed.

Lemma modulus_pos : 0 < int_max d - int_min d + 1.
Proof. destruct d; try discriminate; cbn; lia. Qed.

Lemma wrap_add_l a b : wrap d (wrap d a + b) = wrap d (a + b).
Proof.
  rewrite !wrap_mod. f_equal.
  replace ((a - int_min d) mod (int_max d - int_min d + 1) + int_min d + b
           - int_min d)
    with ((a - int_min d) mod (int_max d - int_min d + 1) + b) by lia.
  rewrite Zplus_mod_idemp_l. f_equal. lia.
Qed.

Lemma wrap_add_r a b : wrap d (a + wrap d b) = wrap d (a + b).
Proof. now rewrite Z.add_comm, wrap_add_l, Z.add_comm. Qed.

Lemma wrap_wrap z : wrap d (wrap d z) = wrap d z.
Proof.
  replace (wrap d z) with (wrap d z + 0) at 1 by lia.
  now rewrite wrap_add_l, Z.add_0_r.
Qed.

Lemma wrap_fold vs acc :
  wrap d (fold_left (fun a v => wrap d (a + v)) vs acc)
  = wrap d (acc + Zsum vs).
Proof.
  revert acc. induction vs as [|v vs IH]; intros acc; cbn [fold_left].
  - unfold Zsum. cbn [fold_right]. now rewrite Z.add_0_r.
  - rewrite IH, wrap_add_l. f_equal. unfold Zsum. cbn [fold_right]. lia.
Qed.

Lemma wrap_Zsum_map vs : wrap d (Zsum (map (wrap d) vs)) = wrap d (Zsum vs).
Proof.
  induction vs as [|v vs IH]; cbn [map]; auto.
  change (Zsum (wrap d v :: map (wrap d) vs))
    with (wrap d v + Zsum (map (wrap d) vs)).
  change (Zsum (v :: vs)) with (v + Zsum vs).
  now rewrite wrap_add_l, <- wrap_add_r, IH, wrap_add_r.
Qed.
End Wrap.

Lemma fold_left_map_arg {A B C : Type} (f : A -> B -> A) (c : C -> B) l a :
  fold_left (fun acc e => f acc (c e)) l a = fold_left f (map c l) a.
Proof.
  revert a. induction l as [|e l IH]; cbn [fold_left map]; intros a; auto.
Qed.

(** The conversion to [bool] gives 0 or 1, and adding truth values is
    disjunction. *)
Lemma cast_bool (d : Dtype) (x : El d) :
  static_cast d kBool x = if truth d x then 1 else 0.
Proof.
  unfold truth.
  destruct d; cbn [static_cast int_value int_of float_of wrap];
    try (destruct (Z.eqb_spec x 0); reflexivity);
    destruct (SFis_zero x); reflexivity.
Qed.

Lemma or_fold (bs : list bool) (acc : bool) :
  fold_left (fun a v => wrap kBool (a + v))
            (map (fun b : bool => if b then 1 else 0) bs)
            (if acc then 1 else 0)
  = if acc || existsb (fun b => b) bs then 1 else 0.
Proof.
  revert acc. induction bs as [|b bs IH]; intros acc;
    cbn [fold_left map existsb].
  - now rewrite orb_false_r.
  - replace (wrap kBool ((if acc then 1 else 0) + (if b then 1 else 0)))
      with (if acc || b then 1 else 0) by (destruct acc, b; reflexivity).
    now rewrite IH, orb_assoc.
Qed.

Section SumIntegral.
Variables In Out : Dtype.
Import NativeSumOp.

Lemma Sum_group_fold (g : list (El In * Z)) :
  ReduceGroup (Impl.policy In Out) g =
  static_cast (Impl.Accum Out) Out
    (fold_left (fun accum x =>
                  add (Impl.Accum Out) accum
                      (static_cast In (Impl.Accum Out) x))
               (map fst g) (zero (Impl.Accum Out))).
Proof.
  unfold ReduceGroup. cbn [Policy.MapOut Policy.Identity Impl.policy].
  unfold Impl.MapOut, Impl.Identity. f_equal.
  generalize (zero (Impl.Accum Out)).
  induction g as [|e g IH]; intros accum; cbn [fold_left map]; auto.
Qed.
End SumIntegral.

(** Into an integral type other than [bool], Sum is the sum of the converted
    elements, wrapped once. *)
Lemma Sum_group_wrapped (In Out : Dtype) (g : list (El In * Z)) :
  is_float Out = false -> Out <> kBool ->
  int_value Out (ReduceGroup (NativeSumOp.Impl.policy In Out) g)
  = wrap Out (Zsum (map (fun e => int_value Out (static_cast In Out (fst e)))
                        g)).
Proof.
  intros Hf Hb. rewrite Sum_group_fold.
  destruct Out; try discriminate; try (now elim Hb);
    match goal with
    | |- int_value ?O _ = _ =>
        change (wrap O (fold_left
                  (fun a x => wrap O (a + static_cast In O x))
                  (map fst g) 0)
                = wrap O (Zsum (map (fun e => static_cast In O (fst e)) g)));
        rewrite (fold_left_map_arg (fun a v => wrap O (a + v))
                   (static_cast In O)), map_map;
        rewrite (wrap_fold O eq_refl Hb);
        reflexivity
    end.
Qed.

Lemma Sum_group_any (In : Dtype) (g : list (El In * Z)) :
  ReduceGroup (NativeSumOp.Impl.policy In kBool) g
  = if existsb (fun e => truth In (fst e)) g then 1 else 0.
Proof.
  rewrite Sum_group_fold.
  change (wrap kBool (fold_left
            (fun a x => wrap kBool (a + static_cast In kBool x))
            (map fst g) 0)
          = if existsb (fun e => truth In (fst e)) g then 1 else 0).
  rewrite (fold_left_map_arg (fun a v => wrap kBool (a + v))
             (static_cast In kBool)).
  rewrite (map_ext _ _ (cast_bool In)).
  rewrite <- (map_map (truth In) (fun b : bool => if b then 1 else 0)).
  rewrite (or_fold _ false). cbn [orb].
  rewrite map_map.
  replace (existsb (fun b : bool => b) (map (fun e => truth In (fst e)) g))
    with (existsb (fun e => truth In (fst e)) g)
    by (induction g as [|e g IH]; cbn [existsb map]; congruence).
  now destruct (existsb _ g).
Qed.

Lemma Dtype_eq_bool (d : Dtype) : d = kBool \/ d <> kBool.
Proof. destruct d; (now left) || (right; discriminate). Qed.

Lemma cast_integral (In Out : Dtype) (x : El In) :
  is_float In = false -> is_float Out = false ->
  int_value Out (static_cast In Out x) = wrap Out (int_value In x).
Proof. destruct In; try discriminate; destruct Out; try discriminate;
       reflexivity. Qed.

Lemma wrap_bool_wrap z : wrap kBool (wrap kBool z) = wrap kBool z.
Proof. unfold wrap. now destruct (z =? 0). Qed.

Lemma Sum_group_integral (In Out : Dtype) (g : list (El In * Z)) :
  is_float In = false -> is_float Out = false -> Out <> kBool ->
  int_value Out (ReduceGroup (NativeSumOp.Impl.policy In Out) g)
  = wrap Out (Zsum (map (fun e => int_value In (fst e)) g)).
Proof.
  intros HI HO Hb. rewrite (Sum_group_wrapped In Out g HO Hb).
  rewrite (map_ext _ (fun e => wrap Out (int_value In (fst e))))
    by (intros e; now apply cast_integral).
  rewrite <- (map_map (fun e => int_value In (fst e)) (wrap Out)).
  now apply wrap_Zsum_map.
Qed.

Lemma int_value_inj (d : Dtype) (x y : El d) :
  is_float d = false -> int_value d x = int_value d y -> x = y.
Proof. destruct d; try discriminate; auto. Qed.

Lemma existsb_map {A B : Type} (f : B -> bool) (c : A -> B) l :
  existsb (fun e => f (c e)) l = existsb f (map c l).
Proof. induction l as [|e l IH]; cbn [existsb map]; congruence. Qed.

Lemma Sum_group_Permutation (In Out : Dtype) (g1 g2 : list (El In * Z)) :
  is_float Out = false ->
  Permutation (map fst g1) (map fst g2) ->
  ReduceGroup (NativeSumOp.Impl.policy In Out) g1
  = ReduceGroup (NativeSumOp.Impl.policy In Out) g2.
Proof.
  intros HO HP. destruct (Dtype_eq_bool Out) as [->|Hb].
  - rewrite !Sum_group_any, !(existsb_map (truth In) fst).
    now rewrite (existsb_Permutation _ _ _ HP).
  - apply (int_value_inj Out _ _ HO).
    rewrite !(Sum_group_wrapped In Out _ HO Hb). f_equal.
    rewrite <- !(map_map fst (fun x => int_value Out (static_cast In Out x))).
    apply Zsum_Permutation. now apply Permutation_map.
Qed.

Lemma add_wrapped (d : Dtype) (a b : El d) :
  is_float d = false ->
  int_value d (add d a b) = wrap d (int_value d a + int_value d b).
Proof. destruct d; try discriminate; reflexivity. Qed.

Lemma Sum_group_app (In Out : Dtype) (g1 g2 : list (El In * Z)) :
  is_float Out = false ->
  ReduceGroup (NativeSumOp.Impl.policy In Out) (g1 ++ g2)
  = add Out (ReduceGroup (NativeSumOp.Impl.policy In Out) g1)
            (ReduceGroup (NativeSumOp.Impl.policy In Out) g2).
Proof.
  intros HO. destruct (Dtype_eq_bool Out) as [->|Hb].
  - rewrite !Sum_group_any, existsb_app.
    now destruct (existsb _ g1), (existsb _ g2).
  - apply (int_value_inj Out _ _ HO). rewrite (add_wrapped Out _ _ HO).
    rewrite !(Sum_group_wrapped In Out _ HO Hb), map_app, Zsum_app.
    now rewrite (wrap_add_l Out HO Hb), (wrap_add_r Out HO Hb).
Qed.

(** ** Reducing an empty axis *)

Lemma flat_map_nil {A B : Type} (l : list A) :
  flat_map (fun _ => @nil B) l = [].
Proof. induction l; auto. Qed.

Lemma indices_zero s : In 0 s -> indices s = [].
Proof.
  induction s as [|n s IH]; [intros []|]. cbn [indices].
  intros [->|H]; [reflexivity|].
  rewrite IH by exact H. cbn [map]. apply flat_map_nil.
Qed.

Lemma select_nth keep s :
  forall k n d,
    nth_error s n = Some d -> keep (k + Z.of_nat n) = true ->
    In d (select keep k s).
Proof.
  induction s as [|m s IH]; intros k [|n] d; cbn [nth_error select];
    try discriminate.
  - intros [= ->]. rewrite Z.add_0_r. intros ->. now left.
  - intros Hn Hk. replace (k + Z.of_nat (S n)) with (k + 1 + Z.of_nat n)
      in Hk by lia.
    destruct (keep k); [right|]; eapply IH; eauto.
Qed.

Lemma reduced_shape_zero s axis i :
  In i axis -> dim s i = Some 0 -> In 0 (reduced_shape axis s).
Proof.
  unfold dim. destruct (Z.ltb_spec i 0); [discriminate|]. intros Hi Hd.
  apply (select_nth _ s 0 (Z.to_nat i) 0 Hd).
  unfold is_reduced. apply existsb_exists. exists i.
  split; [exact Hi|]. apply Z.eqb_eq. lia.
Qed.

(** With an empty reduced axis every group is empty. *)
Lemma groups_empty_axis {T : Dtype} (a : Array T) axis i :
  In i axis -> dim (shape a) i = Some 0 ->
  Forall (fun g => g = []) (groups a axis).
Proof.
  intros Hi Hd. apply Forall_forall. intros g Hg.
  unfold groups in Hg. apply in_map_iff in Hg.
  destruct Hg as (c & <- & _). unfold group.
  now rewrite (indices_zero _ (reduced_shape_zero _ _ _ Hi Hd)).
Qed.

Lemma Reduce_empty_axis {T : Dtype} {Out Accum : Type} (a : Array T) axis i
    (impl : Policy.t (El T) Out Accum) :
  In i axis -> dim (shape a) i = Some 0 ->
  Forall (fun v => v = Policy.MapOut impl (Policy.Identity impl))
         (Reduce a axis impl).
Proof.
  intros Hi Hd. pose proof (groups_empty_axis a axis i Hi Hd) as H.
  unfold Reduce, ReduceGroups. rewrite map_map.
  induction H as [|g gs -> Hgs IH]; cbn [map]; constructor; auto.
Qed.

Lemma Sum_of_nothing (Out : Dtype) :
  static_cast (NativeSumOp.Impl.Accum Out) Out
    (zero (NativeSumOp.Impl.Accum Out)) = zero Out.
Proof. destruct Out; reflexivity. Qed.

(** X1.  The combine step of ArgMin and NaN, as for ArgMax: once the
    accumulator holds an element a NaN never replaces it, and a NaN it
    holds is never replaced; a group that starts with a NaN returns the
    index of that element, and a group that starts with a number returns
    what it would return with its NaN elements removed. *)
Theorem ArgMin_NaN_invariant :
  forall T : Dtype,
    let impl := NativeArgMinOp.Impl.policy T in
    (forall next accum : NativeArgMinOp.Impl.MinAndArgMin T,
        0 <= NativeArgMinOp.Impl.argmin accum ->
        IsNan T (NativeArgMinOp.Impl.min next) = true
        \/ IsNan T (NativeArgMinOp.Impl.min accum) = true ->
        Policy.Reduce impl next accum = accum)
    /\ (forall (x : El T) (i : Z) (g : list (El T * Z)),
        0 <= i -> IsNan T x = true ->
        ReduceGroup impl ((x, i) :: g) = i)
    /\ (forall (x : El T) (i : Z) (g : list (El T * Z)),
        0 <= i -> Forall (fun e => 0 <= snd e) g ->
        IsNan T x = false ->
        ReduceGroup impl ((x, i) :: g)
        = ReduceGroup impl (filter (not_nan T) ((x, i) :: g))).
Proof.
  intros T impl. subst impl. split; [|split].
  - intros next accum Hi Hn. now apply ArgMin_keeps_on_nan.
  - intros x i g. apply ArgMin_nan_first.
  - intros x i g Hi Hg Hx. cbn [filter]. unfold not_nan at 1. cbn [fst].
    rewrite Hx. cbn [negb]. unfold ReduceGroup. cbn [fold_left]. f_equal.
    apply ArgMin_skips_nan; [|exact Hg].
    rewrite ArgMin_step. exact Hi.
Qed.

Lemma ArgMin_NaN_invariant_witness :
  ReduceGroup (NativeArgMinOp.Impl.policy kFloat64)
    (enumerate [f64_nan; f64_one; f64_two]) = 0 /\
  ReduceGroup (NativeArgMinOp.Impl.policy kFloat64)
    (enumerate [f64_two; f64_nan; f64_one])
  = ReduceGroup (NativeArgMinOp.Impl.policy kFloat64)
      [(f64_two, 0); (f64_one, 2)].
Proof.
  split.
  - refine (proj1 (proj2 (ArgMin_NaN_invariant kFloat64))
              f64_nan 0 _ _ eq_refl).
    discriminate.
  - refine (proj2 (proj2 (ArgMin_NaN_invariant kFloat64))
              f64_two 0 [(f64_nan, 1); (f64_one, 2)] _ _ eq_refl).
    + discriminate.
    + repeat constructor; discriminate.
Defined.

(** X2.  On a well-formed input whose reduced axes are all non-empty, every
    index ArgMax and ArgMin return lies in its group: it is at least 0 and
    below the number of coordinates of the reduced axes, whatever the
    elements are (NaN included).  The -1 of the identity never reaches the
    output. *)
Theorem ArgMax_ArgMin_index_in_range :
  forall (T : Dtype) (a : Array T) (axis : Axes) (out : Array kInt64),
    well_formed a ->
    all_axes_nonempty (shape a) axis = true ->
    IsValidReductionShape (shape a) axis (shape out) false = true ->
    exists rmax rmin,
      NativeArgMaxOp.Call a axis out = Ok (mkArray (shape out) rmax) /\
      NativeArgMinOp.Impl a axis out = Ok (mkArray (shape out) rmin) /\
      Forall (fun p => 0 <= p < TotalSize (reduced_shape axis (shape a)))
             (rmax ++ rmin).
Proof.
  intros T a axis out Hwf Hne Hvalid.
  exists (Reduce a axis (NativeArgMaxOp.Impl.policy T)),
         (Reduce a axis (NativeArgMinOp.Impl.policy T)).
  unfold NativeArgMaxOp.Call, NativeArgMinOp.Impl.
  rewrite Hne, Hvalid. cbn [negb].
  split; [reflexivity|]. split; [reflexivity|].
  assert (Hg : forall g, In g (groups a axis) ->
                 g <> [] /\
                 Z.of_nat (length g)
                 = TotalSize (reduced_shape axis (shape a))).
  { intros g Hg. apply In_nth_error in Hg. destruct Hg as [k Hk].
    pose proof (groups_length a axis k g Hwf Hk) as Hl.
    pose proof (reduced_shape_pos _ _ Hne) as Hp.
    split; [|exact Hl]. intros ->. cbn in Hl. lia. }
  apply Forall_app. unfold Reduce, ReduceGroups. rewrite !map_map.
  split; apply Forall_forall; intros p Hp; apply in_map_iff in Hp;
    destruct Hp as (g & <- & Hin); destruct (Hg g Hin) as [Hn Hl];
    rewrite <- Hl.
  - apply (ArgMax_group_position T g Hn).
  - apply (ArgMin_group_position T g Hn).
Qed.

Lemma ArgMax_ArgMin_index_in_range_witness :
  well_formed input_2x3 /\
  exists rmax rmin,
    NativeArgMaxOp.Call input_2x3 [1] out_2 = Ok (mkArray [2] rmax) /\
    NativeArgMinOp.Impl input_2x3 [1] out_2 = Ok (mkArray [2] rmin) /\
    Forall (fun p => 0 <= p < 3) (rmax ++ rmin).
Proof.
  assert (Hwf : well_formed input_2x3)
    by (split; [repeat constructor; discriminate|reflexivity]).
  split; [exact Hwf|].
  exact (ArgMax_ArgMin_index_in_range kInt32 input_2x3 [1] out_2
           Hwf eq_refl eq_refl).
Defined.

(** X3.  On a well-formed input whose reduced axes are all non-empty, for
    every group without NaN the index ArgMax returns is the position of an
    element that bounds the group from above, and the index ArgMin returns
    is the position of an element that bounds it from below. *)
Theorem ArgMax_ArgMin_return_extrema :
  forall (T : Dtype) (a : Array T) (axis : Axes) (out : Array kInt64),
    well_formed a ->
    all_axes_nonempty (shape a) axis = true ->
    IsValidReductionShape (shape a) axis (shape out) false = true ->
    exists rmax rmin,
      NativeArgMaxOp.Call a axis out = Ok (mkArray (shape out) rmax) /\
      NativeArgMinOp.Impl a axis out = Ok (mkArray (shape out) rmin) /\
      forall k g,
        nth_error (groups a axis) k = Some g -> has_nan T g = false ->
        exists p q x y,
          nth_error rmax k = Some p /\ nth_error rmin k = Some q /\
          nth_error g (Z.to_nat p) = Some x /\ is_maximum T g x = true /\
          nth_error g (Z.to_nat q) = Some y /\ is_minimum T g y = true.
Proof.
  intros T a axis out Hwf Hne Hvalid.
  exists (Reduce a axis (NativeArgMaxOp.Impl.policy T)),
         (Reduce a axis (NativeArgMinOp.Impl.policy T)).
  unfold NativeArgMaxOp.Call, NativeArgMinOp.Impl.
  rewrite Hne, Hvalid. cbn [negb].
  split; [reflexivity|]. split; [reflexivity|].
  intros k g Hk Hnan.
  assert (Hn : g <> []).
  { pose proof (groups_length a axis k g Hwf Hk) as Hl.
    pose proof (reduced_shape_pos _ _ Hne) as Hp.
    intros ->. cbn in Hl. lia. }
  do 4 eexists.
  split; [apply (Reduce_nth _ _ _ _ _ Hk)|].
  split; [apply (Reduce_nth _ _ _ _ _ Hk)|].
  split; [apply (ArgMax_group_position T g Hn)|].
  split; [apply (ArgMax_group_is_maximum T g Hn Hnan)|].
  split; [apply (ArgMin_group_position T g Hn)|].
  apply (ArgMin_group_is_minimum T g Hn Hnan).
Qed.

Lemma ArgMax_ArgMin_return_extrema_witness :
  well_formed input_2x3 /\
  exists rmax rmin p q x y,
    NativeArgMaxOp.Call input_2x3 [1] out_2 = Ok (mkArray [2] rmax) /\
    NativeArgMinOp.Impl input_2x3 [1] out_2 = Ok (mkArray [2] rmin) /\
    nth_error rmax 1 = Some p /\ nth_error rmin 1 = Some q /\
    nth_error [4; 0; 6] (Z.to_nat p) = Some x /\
    is_maximum kInt32 [4; 0; 6] x = true /\
    nth_error [4; 0; 6] (Z.to_nat q) = Some y /\
    is_minimum kInt32 [4; 0; 6] y = true.
Proof.
  assert (Hwf : well_formed input_2x3)
    by (split; [repeat constructor; discriminate|reflexivity]).
  split; [exact Hwf|].
  destruct (ArgMax_ArgMin_return_extrema kInt32 input_2x3 [1] out_2
              Hwf eq_refl eq_refl) as (rmax & rmin & Hmax & Hmin & H).
  destruct (H 1%nat [4; 0; 6] eq_refl eq_refl) as (p & q & x & y & Hr).
  exists rmax, rmin, p, q, x, y. split; [exact Hmax|]. split; [exact Hmin|].
  exact Hr.
Defined.

(** X4.  ArgMax and AMax agree: on a well-formed input of in-range elements
    whose reduced axes are all non-empty, for every group without NaN the
    value AMax returns is the element of the group at the index ArgMax
    returns. *)
Theorem AMax_is_the_element_at_ArgMax :
  forall (T : Dtype) (a : Array T) (axis : Axes)
         (outI : Array kInt64) (out : Array T),
    well_formed a ->
    Forall (fun x => valid T x = true) (data a) ->
    all_axes_nonempty (shape a) axis = true ->
    IsValidReductionShape (shape a) axis (shape outI) false = true ->
    IsValidReductionShape (shape a) axis (shape out) true = true ->
    exists ri rv,
      NativeArgMaxOp.Call a axis outI = Ok (mkArray (shape outI) ri) /\
      NativeAMaxOp.Call a axis out = Ok (mkArray (shape out) rv) /\
      forall k g,
        nth_error (groups a axis) k = Some g -> has_nan T g = false ->
        exists p v,
          nth_error ri k = Some p /\ nth_error rv k = Some v /\
          nth_error g (Z.to_nat p) = Some v.
Proof.
  intros T a axis outI out Hwf Hv Hne HvI HvT.
  exists (Reduce a axis (NativeArgMaxOp.Impl.policy T)),
         (Reduce a axis (NativeAMaxOp.Impl.policy T)).
  unfold NativeArgMaxOp.Call, NativeAMaxOp.Call.
  rewrite Hne, HvI, HvT. cbn [negb].
  split; [reflexivity|]. split; [reflexivity|].
  intros k g Hk Hnan.
  assert (Hn : g <> []).
  { pose proof (groups_length a axis k g Hwf Hk) as Hl.
    pose proof (reduced_shape_pos _ _ Hne) as Hp.
    intros ->. cbn in Hl. lia. }
  do 2 eexists.
  split; [apply (Reduce_nth _ _ _ _ _ Hk)|].
  split; [apply (Reduce_nth _ _ _ _ _ Hk)|].
  apply AMax_is_ArgMax_element; auto.
  apply Forall_forall. intros x Hx. rewrite Forall_forall in Hv.
  apply Hv. eapply groups_In; eauto.
Qed.

Lemma AMax_is_the_element_at_ArgMax_witness :
  well_formed input_2x3 /\
  Forall (fun x => valid kInt32 x = true) (data input_2x3) /\
  exists ri rv p v,
    NativeArgMaxOp.Call input_2x3 [1] out_2 = Ok (mkArray [2] ri) /\
    NativeAMaxOp.Call input_2x3 [1] out_2_i32 = Ok (mkArray [2] rv) /\
    nth_error ri 0 = Some p /\ nth_error rv 0 = Some v /\
    nth_error [1; 3; 2] (Z.to_nat p) = Some v.
Proof.
  assert (Hwf : well_formed input_2x3)
    by (split; [repeat constructor; discriminate|reflexivity]).
  assert (Hd : Forall (fun x => valid kInt32 x = true) (data input_2x3))
    by (repeat constructor).
  split; [exact Hwf|]. split; [exact Hd|].
  destruct (AMax_is_the_element_at_ArgMax kInt32 input_2x3 [1] out_2
              out_2_i32 Hwf Hd eq_refl eq_refl eq_refl)
    as (ri & rv & Hi & Hv & H).
  destruct (H 0%nat [1; 3; 2] eq_refl eq_refl) as (p & v & Hr).
  exists ri, rv, p, v. split; [exact Hi|]. split; [exact Hv|]. exact Hr.
Defined.

(** X5.  The combine step of AMax is associative, and on in-range values
    its identity is neutral on both sides; hence AMax over a group split in
    two is the combination of AMax over the parts. *)
Theorem AMax_combine_is_a_monoid :
  forall T : Dtype,
    let impl := NativeAMaxOp.Impl.policy T in
    (forall a b x : El T,
        Policy.Reduce impl x (Policy.Reduce impl b a)
        = Policy.Reduce impl (Policy.Reduce impl x b) a)
    /\ (forall a : El T,
        valid T a = true ->
        Policy.Reduce impl a (Policy.Identity impl) = a /\
        Policy.Reduce impl (Policy.Identity impl) a = a)
    /\ (forall g1 g2 : list (El T * Z),
        Forall (fun e => valid T (fst e) = true) (g1 ++ g2) ->
        ReduceGroup impl (g1 ++ g2)
        = Policy.Reduce impl (ReduceGroup impl g2) (ReduceGroup impl g1)).
Proof.
  intros T impl. subst impl. split; [|split].
  - apply AMax_Reduce_assoc.
  - apply AMax_Reduce_identity.
  - apply AMax_group_app.
Qed.

Lemma AMax_combine_is_a_monoid_witness :
  Forall (fun e => valid kInt32 (fst e) = true)
         (one_to_four ++ four_to_one) /\
  ReduceGroup (NativeAMaxOp.Impl.policy kInt32) (one_to_four ++ four_to_one)
  = NativeAMaxOp.Impl.Reduce kInt32
      (ReduceGroup (NativeAMaxOp.Impl.policy kInt32) four_to_one)
      (ReduceGroup (NativeAMaxOp.Impl.policy kInt32) one_to_four) /\
  NativeAMaxOp.Impl.Reduce kInt32 7 (NativeAMaxOp.Impl.Identity kInt32) = 7.
Proof.
  assert (H : Forall (fun e => valid kInt32 (fst e) = true)
                (one_to_four ++ four_to_one)) by (repeat constructor).
  split; [exact H|]. split.
  - exact (proj2 (proj2 (AMax_combine_is_a_monoid kInt32))
             one_to_four four_to_one H).
  - exact (proj1 (proj1 (proj2 (AMax_combine_is_a_monoid kInt32)) 7
                    eq_refl)).
Defined.

(** X6.  Sum from an integral type into an integral type other than [bool]
    is the sum of the elements as integers, wrapped once into the output
    type: the wrap-around of the intermediate additions leaves no trace. *)
Theorem Sum_integral_is_the_wrapped_sum :
  forall (In Out : Dtype) (g : list (El In * Z)),
    is_float In = false -> is_float Out = false -> Out <> kBool ->
    int_value Out (ReduceGroup (NativeSumOp.Impl.policy In Out) g)
    = wrap Out (Zsum (map (fun e => int_value In (fst e)) g)).
Proof. exact Sum_group_integral. Qed.

Lemma Sum_integral_is_the_wrapped_sum_witness :
  is_float kInt32 = false /\ is_float kInt8 = false /\ kInt8 <> kBool /\
  int_value kInt8
    (ReduceGroup (NativeSumOp.Impl.policy kInt32 kInt8)
       [(100, 0); (100, 1); (100, 2)])
  = wrap kInt8 (Zsum [100; 100; 100]).
Proof.
  assert (H : kInt8 <> kBool) by discriminate.
  split; [reflexivity|]. split; [reflexivity|]. split; [exact H|].
  exact (Sum_integral_is_the_wrapped_sum kInt32 kInt8
           [(100, 0); (100, 1); (100, 2)] eq_refl eq_refl H).
Defined.

(** X7.  Sum into [bool] is "any": the output is [true] exactly when some
    element of the group converts to [true], that is, is not zero (a NaN
    counts as not zero). *)
Theorem Sum_into_bool_is_any :
  (forall (In : Dtype) (g : list (El In * Z)),
      ReduceGroup (NativeSumOp.Impl.policy In kBool) g
      = if existsb (fun e => truth In (fst e)) g then 1 else 0)
  /\ (forall (In : Dtype) (x : El In),
        is_float In = false -> truth In x = negb (int_value In x =? 0))
  /\ (forall x : spec_float,
        truth kFloat16 x = negb (SFis_zero x) /\
        truth kFloat32 x = negb (SFis_zero x) /\
        truth kFloat64 x = negb (SFis_zero x)).
Proof.
  split; [exact Sum_group_any|]. split.
  - intros In x HI. unfold truth.
    destruct In; try discriminate;
      cbn [static_cast int_of int_value wrap];
      destruct (Z.eqb_spec x 0); reflexivity.
  - intros x. unfold truth. cbn [static_cast float_of int_value].
    destruct (SFis_zero x); repeat split.
Qed.

Lemma Sum_into_bool_is_any_witness :
  truth kInt32 0 = false /\ truth kInt32 (-3) = true.
Proof.
  split.
  - exact (proj1 (proj2 Sum_into_bool_is_any) kInt32 0 eq_refl).
  - exact (proj1 (proj2 Sum_into_bool_is_any) kInt32 (-3) eq_refl).
Defined.

(** X8.  Into an integral type the result of Sum does not depend on the
    order in which the engine visits the elements of a group. *)
Theorem Sum_integral_ignores_the_order :
  forall (In Out : Dtype) (g1 g2 : list (El In * Z)),
    is_float Out = false ->
    Permutation (map fst g1) (map fst g2) ->
    ReduceGroup (NativeSumOp.Impl.policy In Out) g1
    = ReduceGroup (NativeSumOp.Impl.policy In Out) g2.
Proof. exact Sum_group_Permutation. Qed.

Lemma Sum_integral_ignores_the_order_witness :
  Permutation (map fst one_to_four) (map fst four_to_one) /\
  ReduceGroup (NativeSumOp.Impl.policy kInt32 kInt8) one_to_four
  = ReduceGroup (NativeSumOp.Impl.policy kInt32 kInt8) four_to_one.
Proof.
  assert (H : Permutation (map fst one_to_four) (map fst four_to_one)).
  { change (Permutation [1; 2; 3; 4] (rev [1; 2; 3; 4])).
    apply Permutation_rev. }
  split; [exact H|].
  exact (Sum_integral_ignores_the_order kInt32 kInt8
           one_to_four four_to_one eq_refl H).
Defined.

(** X9.  Into an integral type Sum is additive over concatenation: the sum
    of a group split in two is the [+=] of the sums of the parts. *)
Theorem Sum_integral_is_additive :
  forall (In Out : Dtype) (g1 g2 : list (El In * Z)),
    is_float Out = false ->
    ReduceGroup (NativeSumOp.Impl.policy In Out) (g1 ++ g2)
    = add Out (ReduceGroup (NativeSumOp.Impl.policy In Out) g1)
              (ReduceGroup (NativeSumOp.Impl.policy In Out) g2).
Proof. exact Sum_group_app. Qed.

Lemma Sum_integral_is_additive_witness :
  ReduceGroup (NativeSumOp.Impl.policy kInt32 kUInt8)
    (one_to_four ++ four_to_one)
  = add kUInt8
      (ReduceGroup (NativeSumOp.Impl.policy kInt32 kUInt8) one_to_four)
      (ReduceGroup (NativeSumOp.Impl.policy kInt32 kUInt8) four_to_one).
Proof.
  exact (Sum_integral_is_additive kInt32 kUInt8 one_to_four four_to_one
           eq_refl).
Defined.

(** X10.  Sum and AMax do not assert that the reduced axes are non-empty:
    when a reduced axis has size 0 (and the output shape is valid) the call
    succeeds, every output element of Sum is 0 and every output element of
    AMax is the identity, the lowest value or minus infinity. *)
Theorem Sum_AMax_over_an_empty_axis :
  forall (T Out : Dtype) (a : Array T) (axis : Axes)
         (out : Array Out) (outT : Array T),
    (exists i, In i axis /\ dim (shape a) i = Some 0) ->
    (IsValidReductionShape (shape a) axis (shape out) true = true ->
     exists r, NativeSumOp.Call a axis out = Ok (mkArray (shape out) r) /\
               Forall (fun v => v = zero Out) r)
    /\ (IsValidReductionShape (shape a) axis (shape outT) true = true ->
        exists r, NativeAMaxOp.Call a axis outT
                  = Ok (mkArray (shape outT) r) /\
                  Forall (fun v => v = LowestOrInf T) r).
Proof.
  intros T Out a axis out outT (i & Hi & Hd). split; intros Hv.
  - exists (Reduce a axis (NativeSumOp.Impl.policy T Out)).
    unfold NativeSumOp.Call. rewrite Hv. cbn [negb].
    split; [reflexivity|].
    pose proof (Reduce_empty_axis a axis i
                  (NativeSumOp.Impl.policy T Out) Hi Hd) as H.
    cbn [Policy.MapOut Policy.Identity NativeSumOp.Impl.policy] in H.
    unfold NativeSumOp.Impl.MapOut, NativeSumOp.Impl.Identity in H.
    now rewrite Sum_of_nothing in H.
  - exists (Reduce a axis (NativeAMaxOp.Impl.policy T)).
    unfold NativeAMaxOp.Call. rewrite Hv. cbn [negb].
    split; [reflexivity|].
    exact (Reduce_empty_axis a axis i (NativeAMaxOp.Impl.policy T) Hi Hd).
Qed.

Lemma Sum_AMax_over_an_empty_axis_witness :
  (In 1 [1] /\ dim (shape input_2x0) 1 = Some 0) /\
  (exists r, NativeSumOp.Call input_2x0 [1] out_2_i32
             = Ok (mkArray [2] r) /\ Forall (fun v => v = 0) r) /\
  (exists r, NativeAMaxOp.Call input_2x0 [1] out_2_i8
             = Ok (mkArray [2] r) /\ Forall (fun v => v = -128) r).
Proof.
  assert (H0 : In 1 [1] /\ dim (shape input_2x0) 1 = Some 0)
    by (split; [left|]; reflexivity).
  split; [exact H0|].
  destruct (Sum_AMax_over_an_empty_axis kInt8 kInt32 input_2x0 [1]
              out_2_i32 out_2_i8 (ex_intro _ 1 H0)) as [HS HA].
  split; [exact (HS eq_refl)|exact (HA eq_refl)].
Defined.
